(** * Token-bucket rate limiting middleware: model and properties

    Shallow embedding of [ratelimit.go] and [redis.go]: the [Options]
    record, the [Store] interface with its two implementations
    ([memoryStore], [redisStore]) and the request handler returned by [New].

    Limiters are heap objects referenced by pointer; the store maps keys to
    pointers, so the model keeps an explicit heap of limiter objects next to
    the store. *)

From Stdlib Require Import QArith Qminmax Lqa ZArith Lia.
From stdpp Require Import base option list gmap strings.

Local Open Scope Q_scope.

(** ** The token bucket ([rate.Limiter]) *)

Module rate.

(** Modelled from the spec: the type [rate.Limiter] of
    golang.org/x/time/rate is imported by [ratelimit.go] but is not among
    the sources. Its attributes are the refill rate (tokens per second),
    the burst capacity, the current token count and the last-refill
    timestamp (seconds); rates, counts and timestamps are rationals. *)
Record Limiter := mkLimiter {
  limit : Q;
  burst : Z;
  tokens : Q;
  last : Q
}.

(** Modelled from the spec: [rate.NewLimiter] is not among the sources.
    The bucket is a pool that refills at the rate and is capped at the
    burst, and a rate of zero is a configuration that rejects every request
    (sections 4.1 and 7). A limiter is created lazily on the first request
    of a key, which is admitted at a positive rate (section 8, scenario 6,
    and the package's tests): the pool of a new limiter holds what its rate
    has filled in, the burst at a positive rate and nothing otherwise. Its
    last-refill timestamp is the time of creation. *)
Definition NewLimiter (now : Q) (r : Q) (b : Z) : Limiter :=
  {| limit := r; burst := b;
     tokens := if Qlt_le_dec 0 r then inject_Z b else 0;
     last := now |}.

(** Modelled from the spec: the refill step of [Allow], which is not among
    the sources. Elapsed time since the last refill, tokens increased by
    [elapsed * rate], capped at [burst]. *)
Definition refill (now : Q) (lim : Limiter) : Q :=
  let elapsed := now - last lim in
  let t := tokens lim + elapsed * limit lim in
  if Qlt_le_dec (inject_Z (burst lim)) t then inject_Z (burst lim) else t.

(** Modelled from the spec: [Limiter.Allow] is not among the
    sources. Refill, set the last-refill timestamp to now, then admit and
    take one token if at least one token is there, else reject and take
    nothing. *)
Definition Allow (now : Q) (lim : Limiter) : bool * Limiter :=
  let t := refill now lim in
  if Qlt_le_dec t 1
  then (false, {| limit := limit lim; burst := burst lim; tokens := t; last := now |})
  else (true, {| limit := limit lim; burst := burst lim; tokens := t - 1; last := now |}).

(** [n] calls of [Allow] in a row, all at the instant [now]. *)
Fixpoint AllowN (n : nat) (now : Q) (lim : Limiter) : list bool * Limiter :=
  match n with
  | O => ([], lim)
  | S n' =>
      let '(ok, lim1) := Allow now lim in
      let '(oks, lim2) := AllowN n' now lim1 in
      (ok :: oks, lim2)
  end.

(** Calls of [Allow] at the successive instants of [ts]. *)
Fixpoint AllowAt (ts : list Q) (lim : Limiter) : list bool * Limiter :=
  match ts with
  | [] => ([], lim)
  | now :: ts' =>
      let '(ok, lim1) := Allow now lim in
      let '(oks, lim2) := AllowAt ts' lim1 in
      (ok :: oks, lim2)
  end.

End rate.

(** ** Pointers to limiters and the heap they live in *)

(** A value of Go type pointer-to-[rate.Limiter]: nil or the address of a
    limiter object. *)
Inductive LimiterPtr :=
  | NilLimiter
  | Ref (a : nat).

#[global] Instance LimiterPtr_eq_dec : EqDecision LimiterPtr.
Proof. solve_decision. Defined.

(** Allocation of a new limiter object: it gets the next free address. *)
Definition alloc (h : list rate.Limiter) (lim : rate.Limiter) : LimiterPtr * list rate.Limiter :=
  (Ref (length h), h ++ [lim]).

(** Reading through a pointer; [None] is Go's nil-pointer panic. *)
Definition deref (h : list rate.Limiter) (p : LimiterPtr) : option rate.Limiter :=
  match p with
  | NilLimiter => None
  | Ref a => h !! a
  end.

(** Writing through a pointer (the receiver of [Allow] is updated in place). *)
Definition assign (h : list rate.Limiter) (p : LimiterPtr) (lim : rate.Limiter) : list rate.Limiter :=
  match p with
  | NilLimiter => h
  | Ref a => <[a := lim]> h
  end.

(** ** The [Store] interface and its implementations *)

(** [Set] is reserved in Rocq, hence [Set_]. The store is passed and
    returned explicitly; the locks of the Go code serialise the calls. *)
Class Store (T : Type) := {
  Get : T -> string -> LimiterPtr * bool;
  Set_ : T -> string -> LimiterPtr -> T
}.

Record memoryStore := mkMemoryStore {
  limiters : gmap string LimiterPtr
}.

Definition newMemoryStore : memoryStore :=
  {| limiters := ∅ |}.

(** [limiter, exists := s.limiters[key]]: a missing key reads as the zero
    value nil and [false]. *)
Definition memoryStore_Get (s : memoryStore) (key : string) : LimiterPtr * bool :=
  match limiters s !! key with
  | Some limiter => (limiter, true)
  | None => (NilLimiter, false)
  end.

Definition memoryStore_Set (s : memoryStore) (key : string) (limiter : LimiterPtr) : memoryStore :=
  {| limiters := <[key := limiter]> (limiters s) |}.

#[global] Instance memoryStore_Store : Store memoryStore :=
  {| Get := memoryStore_Get; Set_ := memoryStore_Set |}.

(** The Redis client and the context are kept only as data: neither [Get]
    nor [Set] of [redisStore] talks to them. *)
Record redisClient := mkRedisClient {
  Addr : string
}.

Inductive goContext :=
  | Background.

Record redisStore := mkRedisStore {
  client : redisClient;
  ctx : goContext
}.

Definition redisStore_Get (s : redisStore) (key : string) : LimiterPtr * bool :=
  (NilLimiter, false).

Definition redisStore_Set (s : redisStore) (key : string) (limiter : LimiterPtr) : redisStore :=
  s.

#[global] Instance redisStore_Store : Store redisStore :=
  {| Get := redisStore_Get; Set_ := redisStore_Set |}.

(** A value of interface type [Store]: one of the package's two
    implementations together with its state. *)
Inductive AnyStore :=
  | memory (s : memoryStore)
  | redis (s : redisStore).

#[global] Instance AnyStore_Store : Store AnyStore :=
  {| Get := fun s key =>
       match s with
       | memory m => Get m key
       | redis r => Get r key
       end;
     Set_ := fun s key limiter =>
       match s with
       | memory m => memory (Set_ m key limiter)
       | redis r => redis (Set_ r key limiter)
       end |}.

Definition NewRedisStore (c : redisClient) : AnyStore :=
  redis {| client := c; ctx := Background |}.

(** ** The request pipeline ([gin.Context]) *)

Module gin.

(** Modelled from the spec: [gin.Context] belongs to
    github.com/gin-gonic/gin, which is not among the sources. The record
    holds what the middleware and the handlers of the tests use of it: the
    client address, the request headers, the position in the handler chain
    and the response written so far. *)
Record Context := mkContext {
  clientIP : string;
  header : gmap string string;
  index : Z;
  status : Z;
  written : bool;
  contentType : string;
  body : string
}.

Definition abortIndex : Z := 63.

(** The context the engine hands to the first handler of a request. *)
Definition newContext (ip : string) (hdr : gmap string string) : Context :=
  {| clientIP := ip; header := hdr; index := -1; status := 200;
     written := false; contentType := ""; body := "" |}.

Definition ClientIP (c : Context) : string := clientIP c.

Definition GetHeader (c : Context) (key : string) : string :=
  default "" (header c !! key).

Definition setIndex (i : Z) (c : Context) : Context :=
  {| clientIP := clientIP c; header := header c; index := i; status := status c;
     written := written c; contentType := contentType c; body := body c |}.

(** Modelled from the spec: [c.Abort()] halts the pipeline; the chain index
    jumps past every handler. *)
Definition Abort (c : Context) : Context := setIndex abortIndex c.

Definition IsAborted (c : Context) : bool := (abortIndex <=? index c)%Z.

(** Modelled from the spec: [c.String(code, msg)] writes a plain-text
    response. The status and the content type are taken unless something
    was written before; the message is appended to the body. *)
Definition String_ (code : Z) (msg : string) (c : Context) : Context :=
  {| clientIP := clientIP c; header := header c; index := index c;
     status := if written c then status c else code;
     written := true;
     contentType := if written c then contentType c else "text/plain; charset=utf-8";
     body := body c +:+ msg |}.

Section Chain.

(** [W] is the state the handlers share besides the context. A handler
    receives [c.Next] as its first argument; [None] is a panic. *)
Variable W : Type.

Definition HandlerFunc : Type :=
  (Context * W -> option (Context * W)) -> Context * W -> option (Context * W).

Definition step (s : Context * W) : Context * W :=
  (setIndex (index s.1 + 1) s.1, s.2).

(** Modelled from the spec: [c.Next()] passes control to the next stage of
    the pipeline. This is its loop over the handlers at positions [pos],
    [pos+1], ...: the handler at the current index runs, then the index is
    incremented; a handler that calls [c.Next()] itself runs the rest of the
    chain before it returns, and the loop then finds the index past them.
    Chains are shorter than [abortIndex] (the engine refuses longer ones),
    so the 8-bit index does not wrap. *)
Fixpoint run (hs : list HandlerFunc) (pos : Z) (s : Context * W) : option (Context * W) :=
  match hs with
  | [] => Some s
  | h :: tl =>
      if (index s.1 =? pos)%Z
      then s1 ← h (fun s' => run tl (pos + 1) (step s')) s;
           run tl (pos + 1) (step s1)
      else run tl (pos + 1) s
  end.

(** [c.Next()] as called by the engine on a fresh context. *)
Definition Next (hs : list HandlerFunc) (s : Context * W) : option (Context * W) :=
  run hs 0 (step s).

(** A handler that writes to the context and calls neither [c.Next()] nor
    [c.Abort()]: the chain index is as before when it returns. *)
Definition final (f : Context -> Context) : HandlerFunc :=
  fun _ s => Some (setIndex (index s.1) (f s.1), s.2).

End Chain.

Arguments step {W} s.
Arguments run {W} hs pos s.
Arguments Next {W} hs s.
Arguments final {W} f _ s.

End gin.

(** ** Options and the middleware *)

Definition StatusTooManyRequests : Z := 429.

(** [nil] functions and a [nil] store are [None]. The field [Store] is
    [Store_] here, the name being taken by the interface. The reject handler
    gets the context and the pointer to the limiter, and may read the
    limiter through the heap. *)
Record Options := mkOptions {
  Rate : Q;
  Burst : Z;
  KeyFunc : option (gin.Context -> string);
  Store_ : option AnyStore;
  OnLimitExceeded : option (gin.Context -> LimiterPtr -> list rate.Limiter -> gin.Context)
}.

(** The state behind the closure returned by [New]: the limiter objects and
    the store [opts.Store] refers to. *)
Record World := mkWorld {
  heap : list rate.Limiter;
  store : AnyStore
}.

(** First half of the handler returned by [New]: key, lookup, creation on a
    miss, and the call of [Allow] through the pointer. It returns the
    verdict of [Allow] and the pointer; [now] is the reading of the clock
    during the request. *)
Definition check (rate_ : Q) (burst_ : Z) (keyFunc : gin.Context -> string)
    (now : Q) (c : gin.Context) (w : World) : option (bool * LimiterPtr * World) :=
  let key := keyFunc c in
  let '(limiter, exists_) := Get (store w) key in
  let '(limiter, w) :=
    if negb exists_
    then let '(l, h) := alloc (heap w) (rate.NewLimiter now rate_ burst_) in
         (l, {| heap := h; store := Set_ (store w) key l |})
    else (limiter, w) in
  lim ← deref (heap w) limiter;
  let '(ok, lim') := rate.Allow now lim in
  Some (ok, limiter, {| heap := assign (heap w) limiter lim'; store := store w |}).

(** The handler returned by [New], given the options after the defaults
    were filled in. *)
Definition handler (rate_ : Q) (burst_ : Z) (keyFunc : gin.Context -> string)
    (onLimitExceeded : gin.Context -> LimiterPtr -> list rate.Limiter -> gin.Context)
    (now : Q) : gin.HandlerFunc World :=
  fun next s =>
    let c := s.1 in
    r ← check rate_ burst_ keyFunc now c s.2;
    let '(ok, limiter, w) := r in
    if negb ok
    then Some (gin.Abort (onLimitExceeded c limiter (heap w)), w)
    else next (c, w).

Definition defaultKeyFunc (c : gin.Context) : string :=
  gin.ClientIP c.

Definition defaultOnLimitExceeded (c : gin.Context) (l : LimiterPtr)
    (h : list rate.Limiter) : gin.Context :=
  gin.String_ StatusTooManyRequests "Too Many Requests" c.

(** [New]: fill in the defaults, return the store the closure refers to and
    the closure. *)
Definition New (opts : Options) : AnyStore * (Q -> gin.HandlerFunc World) :=
  let keyFunc :=
    match KeyFunc opts with
    | None => defaultKeyFunc
    | Some f => f
    end in
  let store0 :=
    match Store_ opts with
    | None => memory newMemoryStore
    | Some s => s
    end in
  let onLimitExceeded :=
    match OnLimitExceeded opts with
    | None => defaultOnLimitExceeded
    | Some f => f
    end in
  (store0, handler (Rate opts) (Burst opts) keyFunc onLimitExceeded).

(** ** Serving requests *)

(** A request: the clock reading while it is handled, the client address
    and the headers. *)
Record Request := mkRequest {
  when : Q;
  remoteIP : string;
  headers : gmap string string
}.

Definition contextOf (r : Request) : gin.Context :=
  gin.newContext (remoteIP r) (headers r).

(** The state right after [New opts]: no limiter exists yet. *)
Definition start (opts : Options) : World :=
  {| heap := []; store := (New opts).1 |}.

(** The engine with the middleware first and [rest] after it. *)
Definition ServeHTTP (opts : Options) (rest : list (gin.HandlerFunc World))
    (r : Request) (w : World) : option (gin.Context * World) :=
  gin.Next ((New opts).2 (when r) :: rest) (contextOf r, w).

(** Requests served one after the other, each handled to its end before
    the next one enters the handler; the responses come back in order. The
    handler holds no lock from [Get] to [Set], so requests that overlap in
    time are not runs of this kind. *)
Fixpoint serveAll (opts : Options) (rest : list (gin.HandlerFunc World))
    (rs : list Request) (w : World) : option (list gin.Context * World) :=
  match rs with
  | [] => Some ([], w)
  | r :: rs' =>
      s ← ServeHTTP opts rest r w;
      t ← serveAll opts rest rs' s.2;
      Some (s.1 :: t.1, t.2)
  end.

(** The key function and the reject handler the closure of [New opts]
    ends up with. *)
Definition keyOf (opts : Options) : gin.Context -> string :=
  match KeyFunc opts with
  | None => defaultKeyFunc
  | Some f => f
  end.

Definition onLimitExceededOf (opts : Options)
  : gin.Context -> LimiterPtr -> list rate.Limiter -> gin.Context :=
  match OnLimitExceeded opts with
  | None => defaultOnLimitExceeded
  | Some f => f
  end.

(** The context as the middleware sees it: the engine has moved the chain
    index to the first handler. *)
Definition entering (r : Request) : gin.Context :=
  gin.setIndex 0 (contextOf r).

(** The context after the handlers [fs], none of which calls [c.Next()] or
    [c.Abort()], ran one after the other. *)
Definition through (fs : list (gin.Context -> gin.Context)) (c : gin.Context) : gin.Context :=
  foldl (fun c f => gin.setIndex (gin.index c + 1) (f c)) c fs.

(** The response to an admitted request when [fs] are the handlers behind
    the middleware: the reject handler has left no trace in it. *)
Definition admitted (fs : list (gin.Context -> gin.Context)) (r : Request) : gin.Context :=
  gin.setIndex (Z.of_nat (length fs) + 2) (through fs (gin.setIndex 1 (entering r))).

(** The response to a rejected request: what the reject handler made of the
    context, aborted. *)
Definition rejected (opts : Options) (r : Request) (l : LimiterPtr)
    (h : list rate.Limiter) : gin.Context :=
  gin.setIndex (gin.abortIndex + 1) (onLimitExceededOf opts (entering r) l h).

(** The limiter the store holds for [key], read through the pointer. *)
Definition limiterOf (w : World) (key : string) : option rate.Limiter :=
  let '(limiter, exists_) := Get (store w) key in
  if exists_ then deref (heap w) limiter else None.

(** Whether the request came out of the pipeline admitted, that is, not
    aborted. *)
Definition decision (opts : Options) (fs : list (gin.Context -> gin.Context))
    (r : Request) (w : World) : option bool :=
  (fun s => negb (gin.IsAborted s.1)) <$> ServeHTTP opts (map gin.final fs) r w.

(** A run of [Set] calls on a store. *)
Definition setAll {T : Type} `{Store T} (ops : list (string * LimiterPtr)) (s : T) : T :=
  foldl (fun s op => Set_ s op.1 op.2) s ops.

(** The worlds the middleware builds for itself: every pointer in the
    in-memory store is the address of a limiter on the heap, and no two keys
    share a limiter. The Redis-backed store holds no pointers. *)
Definition wf (w : World) : Prop :=
  match store w with
  | memory m =>
      (forall (k : string) (p : LimiterPtr), limiters m !! k = Some p ->
         exists a : nat, p = Ref a /\ (a < length (heap w))%nat) /\
      (forall (k1 k2 : string) (p : LimiterPtr),
         limiters m !! k1 = Some p -> limiters m !! k2 = Some p -> k1 = k2)
  | redis _ => True
  end.

(** The store handed to [New] is one the package makes: the default one,
    an in-memory store nothing was set in, or the Redis-backed one. *)
Definition fresh_store (s : AnyStore) : bool :=
  match s with
  | memory m => bool_decide (limiters m = ∅)
  | redis _ => true
  end.

(** The middleware rejects every request of every run, right from its
    construction. *)
Definition rejects_everything (opts : Options) : Prop :=
  forall (fs : list (gin.Context -> gin.Context)) (rs : list Request),
    (length fs < 61)%nat ->
    exists (resp : list gin.Context) (w' : World),
      serveAll opts (map gin.final fs) rs (start opts) = Some (resp, w') /\
      Forall (fun c => gin.IsAborted c = true) resp.

(** ** The configurations of the package's tests and of its example program *)

Module Test.

(** [rate.Every(10 * time.Millisecond)]: one token every hundredth of a
    second. *)
Definition DefaultRateLimiter : Options :=
  {| Rate := 100; Burst := 1; KeyFunc := None; Store_ := None; OnLimitExceeded := None |}.

Definition CustomKeyFunc : Options :=
  {| Rate := 100; Burst := 1;
     KeyFunc := Some (fun c => gin.GetHeader c "X-API-KEY");
     Store_ := None; OnLimitExceeded := None |}.

Definition CustomOnLimitExceeded : Options :=
  {| Rate := 100; Burst := 1; KeyFunc := None; Store_ := None;
     OnLimitExceeded := Some (fun c _ _ => gin.String_ 418 "I'm a teapot" c) |}.

(** The Redis usage of the example program: one token per second. *)
Definition RedisUsage : Options :=
  {| Rate := 1; Burst := 1; KeyFunc := None;
     Store_ := Some (NewRedisStore {| Addr := "localhost:6379" |});
     OnLimitExceeded := None |}.

(** Room for one token, at a rate that brings none in. *)
Definition ZeroRate : Options :=
  {| Rate := 0; Burst := 1; KeyFunc := None; Store_ := None; OnLimitExceeded := None |}.

(** Room for no token, at the rate of the tests. *)
Definition ZeroBurst : Options :=
  {| Rate := 100; Burst := 0; KeyFunc := None; Store_ := None; OnLimitExceeded := None |}.

(** Neither tokens nor room for them. *)
Definition Degenerate : Options :=
  {| Rate := 0; Burst := 0; KeyFunc := None; Store_ := None; OnLimitExceeded := None |}.

(** The route handler of the tests. *)
Definition OK (c : gin.Context) : gin.Context :=
  gin.String_ 200 "OK" c.

(** A request at time [t] from address [ip], with an API key header. *)
Definition GET (t : Q) (ip key : string) : Request :=
  {| when := t; remoteIP := ip; headers := {[ "X-API-KEY" := key ]} |}.

End Test.

(** The instants [ts] come one after the other, none before [t0]: the
    clock does not run backwards. *)
Fixpoint ascending (t0 : Q) (ts : list Q) : bool :=
  match ts with
  | [] => true
  | t :: ts' => Qle_bool t0 t && ascending t ts'
  end.

(** Number of admitted calls among the verdicts [oks]. *)
Definition admits (oks : list bool) : nat :=
  count_occ bool_dec oks true.

(** ** The handler in steps *)

(** The handler takes the lock of the store for [Get] and again for [Set],
    and [Allow] takes the lock of the limiter; in between, another request
    can run. These are the three stretches: the lookup, the creation of a
    limiter on a miss, and the call of [Allow]. *)
Definition seek (keyFunc : gin.Context -> string) (c : gin.Context) (w : World)
  : LimiterPtr * bool :=
  Get (store w) (keyFunc c).

Definition create (rate_ : Q) (burst_ : Z) (keyFunc : gin.Context -> string) (now : Q)
    (c : gin.Context) (w : World) : LimiterPtr * World :=
  let '(l, h) := alloc (heap w) (rate.NewLimiter now rate_ burst_) in
  (l, {| heap := h; store := Set_ (store w) (keyFunc c) l |}).

Definition call (now : Q) (limiter : LimiterPtr) (w : World)
  : option (bool * LimiterPtr * World) :=
  lim ← deref (heap w) limiter;
  let '(ok, lim') := rate.Allow now lim in
  Some (ok, limiter, {| heap := assign (heap w) limiter lim'; store := store w |}).

(** What the handler does after its lookup has returned [found]. *)
Definition finish (rate_ : Q) (burst_ : Z) (keyFunc : gin.Context -> string) (now : Q)
    (c : gin.Context) (found : LimiterPtr * bool) (w : World)
  : option (bool * LimiterPtr * World) :=
  let '(limiter, w) :=
    if negb found.2 then create rate_ burst_ keyFunc now c w else (found.1, w) in
  call now limiter w.

(** Two requests that overlap: both have looked their key up before either
    goes on; then the first one finishes, then the second. The verdicts of
    both and the state they leave. *)
Definition overlapped (rate_ : Q) (burst_ : Z) (keyFunc : gin.Context -> string)
    (now1 now2 : Q) (c1 c2 : gin.Context) (w : World) : option (bool * bool * World) :=
  let found1 := seek keyFunc c1 w in
  let found2 := seek keyFunc c2 w in
  x1 ← finish rate_ burst_ keyFunc now1 c1 found1 w;
  x2 ← finish rate_ burst_ keyFunc now2 c2 found2 x1.2;
  Some (x1.1.1, x2.1.1, x2.2).

(** ** Observations on stores and runs *)

(** The pointer that the last [Set] for [key] among [ops] has stored, if
    there is one. *)
Fixpoint lastSet (key : string) (ops : list (string * LimiterPtr)) : option LimiterPtr :=
  match ops with
  | [] => None
  | op :: ops' =>
      match lastSet key ops' with
      | Some l => Some l
      | None => if decide (op.1 = key) then Some op.2 else None
      end
  end.

(** What a client can see of a run: which requests were admitted, in
    order, and the state the run has left; [None] if the run panicked. *)
Definition outcome (x : option (list gin.Context * World)) : option (list bool * World) :=
  (fun p => (map (fun c => negb (gin.IsAborted c)) p.1, p.2)) <$> x.

(** What the handler of [New opts] reads of a request: its key and the
    clock. *)
Definition stamp (opts : Options) (r : Request) : string * Q :=
  (keyOf opts (entering r), when r).

(** One token bucket per key, without pointers: the verdicts for the
    requests [rs], and the buckets afterwards, when [m] holds the bucket of
    each key that has one. *)
Fixpoint buckets (opts : Options) (rs : list Request) (m : gmap string rate.Limiter)
  : list bool * gmap string rate.Limiter :=
  match rs with
  | [] => ([], m)
  | r :: rs' =>
      let key := keyOf opts (entering r) in
      let lim := default (rate.NewLimiter (when r) (Rate opts) (Burst opts)) (m !! key) in
      let '(ok, lim') := rate.Allow (when r) lim in
      let '(oks, m') := buckets opts rs' (<[key := lim']> m) in
      (ok :: oks, m')
  end.

(** * Properties *)

(** ** The token bucket *)

Module rate_facts.
Import rate.

Lemma refill_le_burst (now : Q) (lim : Limiter) :
  refill now lim <= inject_Z (burst lim).
Proof.
  unfold refill. destruct (Qlt_le_dec _ _); lra.
Qed.

Lemma refill_Qmin (now : Q) (lim : Limiter) :
  refill now lim ==
  Qmin (inject_Z (burst lim)) (tokens lim + (now - last lim) * limit lim).
Proof.
  unfold refill. destruct (Qlt_le_dec _ _) as [H|H].
  - symmetry. apply Q.min_l. lra.
  - symmetry. apply Q.min_r. lra.
Qed.

(** With no time elapsed, refilling a bucket that is within its capacity
    leaves the token count as it is. *)
Lemma refill_same_instant (lim : Limiter) :
  tokens lim <= inject_Z (burst lim) ->
  refill (last lim) lim == tokens lim.
Proof.
  intros H. unfold refill. destruct (Qlt_le_dec _ _); lra.
Qed.

Lemma Allow_fields (now : Q) (lim : Limiter) :
  limit (Allow now lim).2 = limit lim /\
  burst (Allow now lim).2 = burst lim /\
  last (Allow now lim).2 = now.
Proof.
  unfold Allow. destruct (Qlt_le_dec _ _); simpl; auto.
Qed.

Lemma Allow_true (now : Q) (lim : Limiter) :
  (Allow now lim).1 = true <-> 1 <= refill now lim.
Proof.
  unfold Allow. destruct (Qlt_le_dec _ _); simpl; split; intros; try lra; try easy.
Qed.

Lemma Allow_tokens (now : Q) (lim : Limiter) :
  tokens (Allow now lim).2 ==
  if (Allow now lim).1 then refill now lim - 1 else refill now lim.
Proof.
  unfold Allow. destruct (Qlt_le_dec _ _); simpl; lra.
Qed.

Lemma Allow_tokens_le_burst (now : Q) (lim : Limiter) :
  tokens (Allow now lim).2 <= inject_Z (burst (Allow now lim).2).
Proof.
  pose proof (refill_le_burst now lim) as Hr.
  destruct (Allow_fields now lim) as (_ & -> & _).
  rewrite Allow_tokens. destruct (Allow now lim).1; lra.
Qed.

(** C1: every call of Allow refills the bucket by the elapsed time times the
    rate, capped at the burst, stamps the limiter with the current time,
    and admits exactly when the refilled count is at least one; an admitted
    call takes one token, a rejected call takes none. Rate and burst are
    left as they were. *)
Theorem Allow_spec (now : Q) (lim : Limiter) :
  last (Allow now lim).2 = now /\
  limit (Allow now lim).2 = limit lim /\
  burst (Allow now lim).2 = burst lim /\
  ((Allow now lim).1 = true <->
   1 <= Qmin (inject_Z (burst lim)) (tokens lim + (now - last lim) * limit lim)) /\
  ((Allow now lim).1 = false <->
   Qmin (inject_Z (burst lim)) (tokens lim + (now - last lim) * limit lim) < 1) /\
  tokens (Allow now lim).2 ==
    (if (Allow now lim).1
     then Qmin (inject_Z (burst lim)) (tokens lim + (now - last lim) * limit lim) - 1
     else Qmin (inject_Z (burst lim)) (tokens lim + (now - last lim) * limit lim)).
Proof.
  pose proof (refill_Qmin now lim) as Hm.
  destruct (Allow_fields now lim) as (Hl & Hb & Ht).
  repeat split; auto.
  - intros H. apply Allow_true in H. lra.
  - intros H. apply Allow_true. lra.
  - intros H. destruct (Qlt_le_dec (refill now lim) 1) as [Hlt|Hge]; [lra|].
    apply Allow_true in Hge. congruence.
  - intros H. destruct (Allow now lim).1 eqn:E; [|reflexivity].
    apply Allow_true in E. lra.
  - rewrite Allow_tokens. destruct (Allow now lim).1; lra.
Qed.

(** *** Calls at one instant *)

Lemma AllowN_S (n : nat) (now : Q) (lim : Limiter) :
  AllowN (S n) now lim =
  ((Allow now lim).1 :: (AllowN n now (Allow now lim).2).1,
   (AllowN n now (Allow now lim).2).2).
Proof.
  simpl. destruct (Allow now lim) as [ok lim1]. simpl.
  destruct (AllowN n now lim1) as [oks lim2]. reflexivity.
Qed.

Lemma AllowN_length (n : nat) (now : Q) (lim : Limiter) :
  length (AllowN n now lim).1 = n.
Proof.
  revert lim. induction n as [|n IH]; intros lim; [reflexivity|].
  rewrite AllowN_S. simpl. by rewrite IH.
Qed.

(** A limiter that was last refilled at [now] and holds fewer than [k + 1]
    tokens admits at most [k] further calls at [now], and none from the
    [k]-th on. *)
Lemma AllowN_settled (n k : nat) (now : Q) (lim : Limiter) :
  last lim = now ->
  tokens lim <= inject_Z (burst lim) ->
  tokens lim < inject_Z (Z.of_nat k) + 1 ->
  (admits (AllowN n now lim).1 <= k)%nat /\
  forall i : nat, (k <= i)%nat -> (i < n)%nat -> (AllowN n now lim).1 !! i = Some false.
Proof.
  revert k lim. induction n as [|n IH]; intros k lim Hlast Hcap Hk.
  { split; [unfold admits; simpl; lia | intros; lia]. }
  rewrite AllowN_S. cbn [fst snd].
  assert (Hrf : refill now lim == tokens lim).
  { rewrite <- Hlast. by apply refill_same_instant. }
  destruct (Allow_fields now lim) as (_ & Hb' & Hl').
  pose proof (Allow_tokens now lim) as Ht'.
  pose proof (Allow_tokens_le_burst now lim) as Hc'.
  destruct (Allow now lim).1 eqn:E.
  - apply Allow_true in E.
    destruct k as [|k].
    { change (inject_Z (Z.of_nat 0)) with 0 in Hk. lra. }
    assert (Hk' : tokens (Allow now lim).2 < inject_Z (Z.of_nat k) + 1).
    { rewrite Nat2Z.inj_succ in Hk. unfold Z.succ in Hk.
      rewrite inject_Z_plus in Hk. change (inject_Z 1) with 1 in Hk. lra. }
    destruct (IH k _ Hl' Hc' Hk') as [IH1 IH2].
    split.
    + unfold admits in *. rewrite count_occ_cons_eq by reflexivity. lia.
    + intros [|i] Hi Hn; [lia|]. simpl. apply IH2; lia.
  - assert (Hlt : refill now lim < 1).
    { destruct (Qlt_le_dec (refill now lim) 1) as [?|Hge]; [done|].
      apply Allow_true in Hge. congruence. }
    assert (Hk' : tokens (Allow now lim).2 < inject_Z (Z.of_nat 0) + 1).
    { change (inject_Z (Z.of_nat 0)) with 0. lra. }
    destruct (IH 0%nat _ Hl' Hc' Hk') as [IH1 IH2].
    split.
    + unfold admits in *. rewrite count_occ_cons_neq by discriminate. lia.
    + intros [|i] Hi Hn; [reflexivity|]. simpl. apply IH2; lia.
Qed.

(** C2: among any number of calls of Allow at one instant, at most burst
    many are admitted, and the call after the burst-th one is rejected. *)
Theorem Allow_burst_bound (n : nat) (now : Q) (lim : Limiter) :
  (admits (AllowN n now lim).1 <= Z.to_nat (burst lim))%nat /\
  (AllowN (S (Z.to_nat (burst lim))) now lim).1 !! Z.to_nat (burst lim) = Some false.
Proof.
  assert (Hgen : forall m : nat,
    (admits (AllowN m now lim).1 <= Z.to_nat (burst lim))%nat /\
    forall i : nat, (Z.to_nat (burst lim) <= i)%nat -> (i < m)%nat ->
      (AllowN m now lim).1 !! i = Some false).
  { intros [|m]; [split; [unfold admits; simpl; lia | intros; lia]|].
    rewrite AllowN_S. cbn [fst snd].
    destruct (Allow_fields now lim) as (_ & Hb' & Hl').
    pose proof (Allow_tokens now lim) as Ht'.
    pose proof (Allow_tokens_le_burst now lim) as Hc'.
    pose proof (refill_le_burst now lim) as Hr.
    destruct (Allow now lim).1 eqn:E.
    - apply Allow_true in E.
      assert (Hb1 : (1 <= burst lim)%Z).
      { apply Qle_trans with (x := 1) in Hr; [|done].
        change 1 with (inject_Z 1) in Hr. by rewrite <- Zle_Qle in Hr. }
      assert (Hk' : tokens (Allow now lim).2 <
                    inject_Z (Z.of_nat (Z.to_nat (burst lim) - 1)) + 1).
      { replace (Z.of_nat (Z.to_nat (burst lim) - 1)) with (burst lim - 1)%Z by lia.
        unfold Z.sub. rewrite inject_Z_plus, inject_Z_opp.
        change (inject_Z 1) with 1. lra. }
      destruct (AllowN_settled m _ now _ Hl' Hc' Hk') as [H1 H2].
      split.
      + unfold admits in *. rewrite count_occ_cons_eq by reflexivity. lia.
      + intros [|i] Hi Hm; [lia|]. simpl. apply H2; lia.
    - assert (Hlt : refill now lim < 1).
      { destruct (Qlt_le_dec (refill now lim) 1) as [?|Hge]; [done|].
        apply Allow_true in Hge. congruence. }
      assert (Hk' : tokens (Allow now lim).2 < inject_Z (Z.of_nat 0) + 1).
      { change (inject_Z (Z.of_nat 0)) with 0. lra. }
      destruct (AllowN_settled m 0 now _ Hl' Hc' Hk') as [H1 H2].
      split.
      + unfold admits in *. rewrite count_occ_cons_neq by discriminate. lia.
      + intros [|i] Hi Hm; [reflexivity|]. simpl. apply H2; lia. }
  split.
  - apply Hgen.
  - apply (Hgen (S (Z.to_nat (burst lim)))); lia.
Qed.

(** A new limiter with a positive rate and room for a token admits the
    first call. *)
Lemma Allow_new (now r : Q) (b : Z) :
  0 < r -> (1 <= b)%Z -> (Allow now (NewLimiter now r b)).1 = true.
Proof.
  intros Hr Hb. apply Allow_true. unfold refill. cbn [NewLimiter tokens last limit burst].
  assert (1 <= inject_Z b) by (change 1 with (inject_Z 1); by rewrite <- Zle_Qle).
  assert ((now - now) * r == 0) by ring.
  destruct (Qlt_le_dec 0 r); [|lra].
  destruct (Qlt_le_dec _ _); lra.
Qed.

Lemma NewLimiter_tokens_range (now r : Q) (b : Z) :
  (0 <= b)%Z -> 0 <= tokens (NewLimiter now r b) <= inject_Z b.
Proof.
  intros Hb. assert (0 <= inject_Z b) by (change 0 with (inject_Z 0); by rewrite <- Zle_Qle).
  cbn [NewLimiter tokens]. destruct (Qlt_le_dec 0 r); lra.
Qed.

(** A limiter with rate zero that holds less than a token rejects the call
    and still holds less than a token afterwards. *)
Lemma Allow_dry (now : Q) (lim : Limiter) :
  limit lim == 0 ->
  tokens lim < 1 ->
  (Allow now lim).1 = false /\
  limit (Allow now lim).2 == 0 /\
  tokens (Allow now lim).2 < 1.
Proof.
  intros Hr Hdry.
  assert (Hrf : refill now lim < 1).
  { unfold refill. assert ((now - last lim) * limit lim == 0) by (rewrite Hr; ring).
    destruct (Qlt_le_dec _ _); lra. }
  assert (E : (Allow now lim).1 = false).
  { destruct (Allow now lim).1 eqn:E; [|done]. apply Allow_true in E. lra. }
  destruct (Allow_fields now lim) as (Hl & _ & _).
  pose proof (Allow_tokens now lim) as Ht. rewrite E in Ht.
  split; [done|]. split; [by rewrite Hl|lra].
Qed.

(** A limiter without room for a token rejects every call. *)
Lemma Allow_no_room (now : Q) (lim : Limiter) :
  (burst lim < 1)%Z -> (Allow now lim).1 = false.
Proof.
  intros Hb. destruct (Allow now lim).1 eqn:E; [|done].
  apply Allow_true in E. pose proof (refill_le_burst now lim) as Hr.
  assert (Hq : 1 <= inject_Z (burst lim)) by lra.
  change 1 with (inject_Z 1) in Hq. rewrite <- Zle_Qle in Hq. lia.
Qed.

(** *** Calls at successive instants *)

Lemma AllowAt_cons (now : Q) (ts : list Q) (lim : Limiter) :
  AllowAt (now :: ts) lim =
  ((Allow now lim).1 :: (AllowAt ts (Allow now lim).2).1,
   (AllowAt ts (Allow now lim).2).2).
Proof.
  simpl. destruct (Allow now lim) as [ok lim1]. simpl.
  destruct (AllowAt ts lim1) as [oks lim2]. reflexivity.
Qed.

(** One call keeps the token count within the bucket, provided the rate
    and the burst are not negative and the clock has not run backwards. *)
Lemma Allow_keeps_range (now : Q) (lim : Limiter) :
  0 <= limit lim ->
  (0 <= burst lim)%Z ->
  last lim <= now ->
  0 <= tokens lim ->
  0 <= tokens (Allow now lim).2 <= inject_Z (burst (Allow now lim).2).
Proof.
  intros Hr Hb Ht H0. split; [|apply Allow_tokens_le_burst].
  rewrite Allow_tokens.
  assert (Hb' : 0 <= inject_Z (burst lim)).
  { change 0 with (inject_Z 0). by rewrite <- Zle_Qle. }
  assert (Hrf : 0 <= refill now lim).
  { unfold refill. destruct (Qlt_le_dec _ _); [done|].
    assert (0 <= (now - last lim) * limit lim) by (apply Qmult_le_0_compat; lra).
    lra. }
  destruct (Allow now lim).1 eqn:E; [|done].
  apply Allow_true in E. lra.
Qed.

Lemma AllowAt_keeps_range (ts : list Q) (lim : Limiter) :
  0 <= limit lim ->
  (0 <= burst lim)%Z ->
  ascending (last lim) ts = true ->
  0 <= tokens lim <= inject_Z (burst lim) ->
  0 <= tokens (AllowAt ts lim).2 <= inject_Z (burst lim) /\
  burst (AllowAt ts lim).2 = burst lim /\
  limit (AllowAt ts lim).2 = limit lim.
Proof.
  revert lim. induction ts as [|now ts IH]; intros lim Hr Hb Hasc Hrange.
  { simpl. auto. }
  rewrite AllowAt_cons. cbn [snd].
  simpl in Hasc. apply andb_true_iff in Hasc as [Hle Hasc].
  apply Qle_bool_iff in Hle.
  destruct (Allow_fields now lim) as (Hl' & Hb' & Ht').
  destruct (IH (Allow now lim).2) as (IH1 & IH2 & IH3).
  - by rewrite Hl'.
  - by rewrite Hb'.
  - by rewrite Ht'.
  - apply Allow_keeps_range; [done..|lra].
  - rewrite <- Hb', <- Hl'. split; [exact IH1 | by rewrite IH2, IH3].
Qed.

(** C5: take a limiter created with a rate and a burst that are not
    negative and called at instants that do not run backwards. It holds
    between zero and burst tokens after every call; the refill of the next
    call does not take it above the burst; the next call admits only if the
    refilled count is at least one, and then takes exactly one token; and
    after that call the count is again between zero and the burst. *)
Theorem tokens_within_burst (r : Q) (b : Z) (t0 : Q) (ts : list Q) (now : Q) :
  0 <= r ->
  (0 <= b)%Z ->
  ascending t0 ts = true ->
  last (AllowAt ts (NewLimiter t0 r b)).2 <= now ->
  0 <= tokens (AllowAt ts (NewLimiter t0 r b)).2 <= inject_Z b /\
  refill now (AllowAt ts (NewLimiter t0 r b)).2 <= inject_Z b /\
  ((Allow now (AllowAt ts (NewLimiter t0 r b)).2).1 = true ->
     1 <= refill now (AllowAt ts (NewLimiter t0 r b)).2 /\
     tokens (Allow now (AllowAt ts (NewLimiter t0 r b)).2).2 ==
       refill now (AllowAt ts (NewLimiter t0 r b)).2 - 1) /\
  0 <= tokens (Allow now (AllowAt ts (NewLimiter t0 r b)).2).2 <= inject_Z b.
Proof.
  intros Hr Hb Hasc Hnow.
  destruct (AllowAt_keeps_range ts (NewLimiter t0 r b)) as (Hrange & Hburst & Hlimit);
    cbn [NewLimiter burst limit last]; auto.
  { by apply NewLimiter_tokens_range. }
  cbn [NewLimiter burst limit] in *.
  set (lim := (AllowAt ts (NewLimiter t0 r b)).2) in *.
  split; [done|]. split; [|split].
  - rewrite <- Hburst. apply refill_le_burst.
  - intros E. split; [by apply Allow_true|].
    rewrite Allow_tokens. by rewrite E.
  - destruct (Allow_fields now lim) as (_ & Hb' & _).
    rewrite <- Hburst, <- Hb'.
    apply Allow_keeps_range; [by rewrite Hlimit|by rewrite Hburst|done|lra].
Qed.

(** A limiter made at 0 with two tokens per second and burst two, called at
    0, 0, 1/2 and 3 seconds, and then once more at 3 seconds. *)
Lemma tokens_within_burst_witness :
  0 <= tokens (AllowAt [0; 0; 1 # 2; 3] (NewLimiter 0 2 2)).2 <= inject_Z 2 /\
  0 <= tokens (Allow 3 (AllowAt [0; 0; 1 # 2; 3] (NewLimiter 0 2 2)).2).2 <= inject_Z 2.
Proof.
  destruct (tokens_within_burst 2 2 0 [0; 0; 1 # 2; 3] 3) as (H1 & _ & _ & H2).
  - lra.
  - lia.
  - reflexivity.
  - vm_compute. discriminate.
  - split; [exact H1 | exact H2].
Defined.

End rate_facts.

(** ** The stores *)

Module store_facts.

Lemma memoryStore_Get_Set (s : memoryStore) (key : string) (l : LimiterPtr) :
  Get (Set_ s key l) key = (l, true).
Proof.
  simpl. unfold memoryStore_Get, memoryStore_Set. simpl.
  by rewrite lookup_insert_eq.
Qed.

Lemma memoryStore_Get_Set_ne (s : memoryStore) (key key' : string) (l : LimiterPtr) :
  key' ≠ key ->
  Get (Set_ s key' l) key = Get s key.
Proof.
  intros Hne. simpl. unfold memoryStore_Get, memoryStore_Set. simpl.
  by rewrite lookup_insert_ne.
Qed.

Lemma memoryStore_Get_new (key : string) :
  Get newMemoryStore key = (NilLimiter, false).
Proof.
  simpl. unfold memoryStore_Get, newMemoryStore. simpl.
  by rewrite lookup_empty.
Qed.

(** [Set] calls on other keys do not change what [Get] returns for [key]. *)
Lemma memoryStore_Get_setAll (ops : list (string * LimiterPtr)) (s : memoryStore)
    (key : string) :
  Forall (fun op => op.1 ≠ key) ops ->
  Get (setAll ops s) key = Get s key.
Proof.
  revert s. induction ops as [|[k l] ops IH]; intros s Hall; [reflexivity|].
  apply Forall_cons in Hall as [Hk Hall]. simpl in Hk.
  unfold setAll in *. simpl. rewrite IH by done.
  by apply memoryStore_Get_Set_ne.
Qed.

(** C6: the in-memory store is a mapping with unique keys. After Set(k, l)
    and any calls of Set for other keys, Get(k) returns l and true; a later
    Set(k, l') replaces l, so that Get(k) returns l' and true; and in a new
    store where only other keys were set, Get(k) reports that k is not
    there. *)
Theorem memoryStore_mapping (s : memoryStore) (k : string) (l l' : LimiterPtr)
    (others others' : list (string * LimiterPtr)) :
  Forall (fun op => op.1 ≠ k) others ->
  Forall (fun op => op.1 ≠ k) others' ->
  Get (setAll others (Set_ s k l)) k = (l, true) /\
  Get (setAll others' (Set_ (setAll others (Set_ s k l)) k l')) k = (l', true) /\
  Get (setAll others newMemoryStore) k = (NilLimiter, false).
Proof.
  intros H1 H2. repeat split.
  - rewrite memoryStore_Get_setAll by done. apply memoryStore_Get_Set.
  - rewrite memoryStore_Get_setAll by done. apply memoryStore_Get_Set.
  - rewrite memoryStore_Get_setAll by done. apply memoryStore_Get_new.
Qed.

(** Keys "a" and "b" in a store that starts with "a" bound to limiter 7. *)
Lemma memoryStore_mapping_witness :
  Get (setAll [("b", Ref 1)] (Set_ (Set_ newMemoryStore "a" (Ref 7)) "a" (Ref 0))) "a"
    = (Ref 0, true) /\
  Get (setAll [("b", Ref 3)]
         (Set_ (setAll [("b", Ref 1)]
                  (Set_ (Set_ newMemoryStore "a" (Ref 7)) "a" (Ref 0))) "a" (Ref 2))) "a"
    = (Ref 2, true) /\
  Get (setAll [("b", Ref 1)] newMemoryStore) "a" = (NilLimiter, false).
Proof.
  apply (memoryStore_mapping (Set_ newMemoryStore "a" (Ref 7)) "a" (Ref 0) (Ref 2)
           [("b", Ref 1)] [("b", Ref 3)]).
  - repeat constructor. simpl. discriminate.
  - repeat constructor. simpl. discriminate.
Defined.

(** C9: the Redis-backed store keeps nothing. Get answers nil and false
    for every key, whatever was set before, and Set returns the store as it
    was; the same holds for the store seen through the interface, as
    NewRedisStore returns it. *)
Theorem redisStore_keeps_nothing (s : redisStore) (c : redisClient) (key key' : string)
    (l : LimiterPtr) (ops : list (string * LimiterPtr)) :
  Get s key = (NilLimiter, false) /\
  Set_ s key l = s /\
  Get (setAll ops s) key = (NilLimiter, false) /\
  setAll ops s = s /\
  Get (NewRedisStore c) key = (NilLimiter, false) /\
  Set_ (NewRedisStore c) key l = NewRedisStore c /\
  Get (Set_ (NewRedisStore c) key' l) key = (NilLimiter, false).
Proof.
  assert (Hall : setAll ops s = s).
  { unfold setAll. induction ops as [|op ops IH]; [reflexivity|]. simpl. exact IH. }
  repeat split; try reflexivity; exact Hall.
Qed.

End store_facts.

(** ** The handler chain *)

Module gin_facts.
Import gin.

Lemma index_setIndex (i : Z) (c : Context) : index (setIndex i c) = i.
Proof. reflexivity. Qed.

Lemma setIndex_setIndex (i j : Z) (c : Context) :
  setIndex i (setIndex j c) = setIndex i c.
Proof. reflexivity. Qed.

Lemma setIndex_index (c : Context) : setIndex (index c) c = c.
Proof. by destruct c. Qed.

Section Chain.
Variable W : Type.
Implicit Types (hs : list (HandlerFunc W)) (s : Context * W).

(** Handlers whose positions the index has left behind, or not reached,
    do not run. *)
Lemma run_skip hs (pos : Z) s :
  (index s.1 < pos \/ pos + Z.of_nat (length hs) <= index s.1)%Z ->
  run hs pos s = Some s.
Proof.
  revert pos. induction hs as [|h tl IH]; intros pos Hout; [reflexivity|].
  cbn [run length] in *.
  destruct (index s.1 =? pos)%Z eqn:E; [apply Z.eqb_eq in E; lia|].
  apply IH. lia.
Qed.

(** The handler at the current index runs, with the rest of the chain as
    its [c.Next()]. *)
Lemma run_here h tl (pos : Z) s :
  index s.1 = pos ->
  run (h :: tl) pos s =
  s1 ← h (fun s' => run tl (pos + 1) (step s')) s; run tl (pos + 1) (step s1).
Proof.
  intros <-. simpl. by rewrite Z.eqb_refl.
Qed.

Lemma final_eq (f : Context -> Context) (next : Context * W -> option (Context * W)) s :
  final f next s = Some (setIndex (index s.1) (f s.1), s.2).
Proof. reflexivity. Qed.

Lemma through_index (fs : list (Context -> Context)) (c : Context) :
  index (foldl (fun c f => setIndex (index c + 1) (f c)) c fs)
  = (index c + Z.of_nat (length fs))%Z.
Proof.
  revert c. induction fs as [|f fs IH]; intros c; simpl; [lia|].
  rewrite IH. simpl. lia.
Qed.

(** Handlers that do not call [c.Next()] or [c.Abort()] run one after the
    other and leave the shared state alone. *)
Lemma run_finals (fs : list (Context -> Context)) (pos : Z) (c : Context) (w : W) :
  index c = pos ->
  run (map final fs) pos (c, w)
  = Some (foldl (fun c f => setIndex (index c + 1) (f c)) c fs, w).
Proof.
  revert pos c. induction fs as [|f fs IH]; intros pos c Hpos; [reflexivity|].
  cbn [map]. rewrite run_here by done. rewrite final_eq.
  cbn [mbind option_bind]. unfold step. cbn [fst snd].
  rewrite index_setIndex, setIndex_setIndex.
  rewrite IH by (simpl; lia). simpl. by rewrite Hpos.
Qed.

End Chain.

End gin_facts.

(** ** The middleware *)

Module middleware_facts.

Lemma New_store (opts : Options) :
  (New opts).1 = match Store_ opts with None => memory newMemoryStore | Some s => s end.
Proof. reflexivity. Qed.

Lemma New_handler (opts : Options) :
  (New opts).2 = handler (Rate opts) (Burst opts) (keyOf opts) (onLimitExceededOf opts).
Proof. reflexivity. Qed.

(** A new limiter lands at the end of the heap, and [Allow] through the new
    pointer updates it there. *)
Lemma deref_alloc (h : list rate.Limiter) (lim : rate.Limiter) :
  deref (alloc h lim).2 (alloc h lim).1 = Some lim.
Proof.
  simpl. rewrite lookup_app_r by lia. by rewrite Nat.sub_diag.
Qed.

Lemma assign_alloc (h : list rate.Limiter) (lim lim' : rate.Limiter) :
  assign (alloc h lim).2 (alloc h lim).1 lim' = h ++ [lim'].
Proof.
  simpl. rewrite insert_app_r_alt by lia. by rewrite Nat.sub_diag.
Qed.

(** The lookup finds a limiter: it is the one [Allow] is called on, nothing
    is created and the store is left alone. *)
Lemma check_hit (r : Q) (b : Z) (keyFunc : gin.Context -> string) (now : Q)
    (c : gin.Context) (w : World) (p : LimiterPtr) :
  Get (store w) (keyFunc c) = (p, true) ->
  check r b keyFunc now c w =
  lim ← deref (heap w) p;
  Some ((rate.Allow now lim).1, p,
        {| heap := assign (heap w) p (rate.Allow now lim).2; store := store w |}).
Proof.
  intros Hget. unfold check. rewrite Hget. cbn [negb].
  destruct (deref (heap w) p) as [lim|]; [|reflexivity].
  simpl. by destruct (rate.Allow now lim).
Qed.

(** The lookup misses: a limiter with the configured rate and burst is
    created, stored under the key, and [Allow] is called on it. *)
Lemma check_miss (r : Q) (b : Z) (keyFunc : gin.Context -> string) (now : Q)
    (c : gin.Context) (w : World) (p : LimiterPtr) :
  Get (store w) (keyFunc c) = (p, false) ->
  check r b keyFunc now c w =
  Some ((rate.Allow now (rate.NewLimiter now r b)).1, Ref (length (heap w)),
        {| heap := heap w ++ [(rate.Allow now (rate.NewLimiter now r b)).2];
           store := Set_ (store w) (keyFunc c) (Ref (length (heap w))) |}).
Proof.
  intros Hget. unfold check. rewrite Hget. cbn [negb].
  pose proof (deref_alloc (heap w) (rate.NewLimiter now r b)) as Hd.
  pose proof (assign_alloc (heap w) (rate.NewLimiter now r b)) as Ha.
  destruct (alloc (heap w) (rate.NewLimiter now r b)) as [l h] eqn:E.
  cbn [fst snd heap store] in *. rewrite Hd. cbn [mbind option_bind].
  destruct (rate.Allow now (rate.NewLimiter now r b)) as [ok lim'] eqn:E'.
  cbn [fst snd heap store]. rewrite Ha.
  unfold alloc in E. by injection E as <- <-.
Qed.

(** The pipeline with the middleware in front, by the verdict of [check]. *)
Lemma ServeHTTP_check (opts : Options) (rest : list (gin.HandlerFunc World))
    (r : Request) (w : World) :
  (length rest < 63)%nat ->
  ServeHTTP opts rest r w =
  match check (Rate opts) (Burst opts) (keyOf opts) (when r) (entering r) w with
  | None => None
  | Some (true, l, w') =>
      s ← gin.run rest 1 (gin.setIndex 1 (entering r), w'); gin.run rest 1 (gin.step s)
  | Some (false, l, w') => Some (rejected opts r l (heap w'), w')
  end.
Proof.
  intros Hlen. unfold ServeHTTP, gin.Next.
  rewrite gin_facts.run_here by reflexivity.
  rewrite New_handler. unfold handler at 1.
  change (gin.step (contextOf r, w)).1 with (entering r).
  change (gin.step (contextOf r, w)).2 with w.
  destruct (check _ _ _ _ _ _) as [[[[] l] w']|]; cbn [mbind option_bind negb]; [done| |done].
  apply gin_facts.run_skip. simpl. unfold gin.abortIndex. lia.
Qed.

(** *** One request in a well-formed world *)

Lemma wf_start (opts : Options) :
  fresh_store (New opts).1 = true -> wf (start opts).
Proof.
  unfold wf, start. cbn [store heap].
  destruct (New opts).1 as [m|r]; [|done].
  simpl. intros Hm%bool_decide_eq_true. rewrite Hm.
  split; intros *; by rewrite lookup_empty.
Qed.

Lemma limiterOf_memory (w : World) (m : memoryStore) (key : string) :
  store w = memory m ->
  limiterOf w key = p ← limiters m !! key; deref (heap w) p.
Proof.
  intros Hs. unfold limiterOf. rewrite Hs. simpl. unfold memoryStore_Get.
  by destruct (limiters m !! key).
Qed.

Lemma limiterOf_redis (w : World) (rs : redisStore) (key : string) :
  store w = redis rs -> limiterOf w key = None.
Proof.
  intros Hs. unfold limiterOf. by rewrite Hs.
Qed.

(** In a well-formed world the handler never panics. It calls [Allow] on
    the limiter of the key, or on a new one when the key has none; the
    limiters of the other keys are as before, and every limiter on the heap
    afterwards was there before or is the one [Allow] has just updated. *)
Lemma check_wf (r : Q) (b : Z) (keyFunc : gin.Context -> string) (now : Q)
    (c : gin.Context) (w : World) :
  wf w ->
  exists (l : LimiterPtr) (w' : World),
    check r b keyFunc now c w =
      Some ((rate.Allow now (default (rate.NewLimiter now r b) (limiterOf w (keyFunc c)))).1,
            l, w') /\
    wf w' /\
    (forall k : string, k ≠ keyFunc c -> limiterOf w' k = limiterOf w k) /\
    limiterOf w' (keyFunc c) =
      match store w with
      | memory _ =>
          Some (rate.Allow now (default (rate.NewLimiter now r b) (limiterOf w (keyFunc c)))).2
      | redis _ => None
      end /\
    (forall lim : rate.Limiter, lim ∈ heap w' ->
       lim ∈ heap w \/
       lim = (rate.Allow now (default (rate.NewLimiter now r b) (limiterOf w (keyFunc c)))).2) /\
    match store w with
    | memory _ => exists m' : memoryStore, store w' = memory m'
    | redis rs => store w' = redis rs
    end.
Proof.
  intros Hwf. unfold wf in Hwf.
  destruct (store w) as [m|rs] eqn:Hs.
  - destruct Hwf as [Hval Hinj].
    destruct (limiters m !! keyFunc c) as [p|] eqn:Hk.
    + (* the key has a limiter *)
      destruct (Hval _ _ Hk) as (a & -> & Ha).
      destruct (lookup_lt_is_Some_2 (heap w) a Ha) as [lim Hlim].
      assert (Hof : limiterOf w (keyFunc c) = Some lim).
      { rewrite (limiterOf_memory w m) by done. rewrite Hk. simpl. exact Hlim. }
      rewrite Hof. cbn [default id].
      eexists _, _. split.
      { rewrite (check_hit r b keyFunc now c w (Ref a)).
        - simpl. rewrite Hlim. reflexivity.
        - rewrite Hs. simpl. unfold memoryStore_Get. by rewrite Hk. }
      cbn [assign]. split; [|split; [|split; [|split]]].
      * unfold wf. cbn [store heap]. rewrite Hs. split; [|done].
        intros k p Hp. rewrite length_insert. eauto.
      * intros k Hne.
        rewrite !(limiterOf_memory _ m) by (cbn [store]; done).
        destruct (limiters m !! k) as [q|] eqn:Hq; [|done].
        destruct (Hval _ _ Hq) as (a' & -> & Ha'). simpl.
        apply list_lookup_insert_ne. intros ->.
        apply Hne. by apply (Hinj _ _ (Ref a')).
      * rewrite (limiterOf_memory _ m) by (cbn [store]; done).
        rewrite Hk. simpl. by apply list_lookup_insert_eq.
      * intros x Hx. cbn [heap] in Hx.
        apply list_elem_of_lookup in Hx as [i Hi].
        destruct (decide (i = a)) as [->|Hne].
        -- rewrite list_lookup_insert_eq in Hi by done. right. congruence.
        -- rewrite list_lookup_insert_ne in Hi by done. left.
           apply list_elem_of_lookup. eauto.
      * cbn [store]. eauto.
    + (* the key has none *)
      assert (Hof : limiterOf w (keyFunc c) = None).
      { rewrite (limiterOf_memory w m) by done. by rewrite Hk. }
      rewrite Hof. cbn [default id].
      eexists _, _. split.
      { apply (check_miss r b keyFunc now c w NilLimiter).
        rewrite Hs. simpl. unfold memoryStore_Get. by rewrite Hk. }
      rewrite Hs. cbn [Set_ AnyStore_Store memoryStore_Store].
      split; [|split; [|split; [|split]]].
      * unfold wf. cbn [store heap memoryStore_Set limiters]. split.
        -- intros k p. rewrite length_app. cbn [length].
           destruct (decide (k = keyFunc c)) as [->|Hne].
           ++ rewrite lookup_insert_eq. intros [= <-]. eexists. split; [done|lia].
           ++ rewrite lookup_insert_ne by done. intros Hp.
              destruct (Hval _ _ Hp) as (a & -> & Ha). eexists. split; [done|lia].
        -- intros k1 k2 p.
           destruct (decide (k1 = keyFunc c)) as [->|Hne1];
             destruct (decide (k2 = keyFunc c)) as [->|Hne2]; [done|..].
           ++ rewrite lookup_insert_eq, lookup_insert_ne by done.
              intros [= <-] Hp. destruct (Hval _ _ Hp) as (a & [= <-] & Ha). lia.
           ++ rewrite lookup_insert_eq, lookup_insert_ne by done.
              intros Hp [= <-]. destruct (Hval _ _ Hp) as (a & [= <-] & Ha). lia.
           ++ rewrite !lookup_insert_ne by done. apply Hinj.
      * intros k Hne.
        rewrite (limiterOf_memory _ (memoryStore_Set m (keyFunc c) (Ref (length (heap w)))))
          by (cbn [store]; done).
        rewrite (limiterOf_memory w m) by done.
        cbn [memoryStore_Set limiters heap]. rewrite lookup_insert_ne by done.
        destruct (limiters m !! k) as [q|] eqn:Hq; [|done].
        destruct (Hval _ _ Hq) as (a' & -> & Ha'). simpl.
        by apply lookup_app_l.
      * rewrite (limiterOf_memory _ (memoryStore_Set m (keyFunc c) (Ref (length (heap w)))))
          by (cbn [store]; done).
        cbn [memoryStore_Set limiters heap]. rewrite lookup_insert_eq. simpl.
        rewrite lookup_app_r by lia. by rewrite Nat.sub_diag.
      * intros x Hx. cbn [heap] in Hx.
        apply elem_of_app in Hx as [Hx|Hx]; [by left|right].
        by apply list_elem_of_singleton in Hx.
      * cbn [store]. eauto.
  - (* the Redis-backed store never finds a limiter *)
    assert (Hof : limiterOf w (keyFunc c) = None) by (by apply (limiterOf_redis w rs)).
    rewrite Hof. cbn [default id].
    eexists _, _. split.
    { apply (check_miss r b keyFunc now c w NilLimiter). by rewrite Hs. }
    rewrite Hs. cbn [Set_ AnyStore_Store redisStore_Store redisStore_Set].
    split; [|split; [|split; [|split]]].
    * unfold wf. by cbn [store].
    * intros k _. rewrite (limiterOf_redis w rs) by done.
      by apply (limiterOf_redis _ rs).
    * by apply (limiterOf_redis _ rs).
    * intros x Hx. cbn [heap] in Hx.
      apply elem_of_app in Hx as [Hx|Hx]; [by left|right].
      by apply list_elem_of_singleton in Hx.
    * done.
Qed.


Lemma limiterOf_elem_of (w : World) (key : string) (lim : rate.Limiter) :
  limiterOf w key = Some lim -> lim ∈ heap w.
Proof.
  unfold limiterOf. destruct (Get (store w) key) as [[|a] []]; try done.
  simpl. intros H. apply list_elem_of_lookup. eauto.
Qed.

(** *** The pipeline with handlers that only write the response *)

Lemma ServeHTTP_finals (opts : Options) (fs : list (gin.Context -> gin.Context))
    (r : Request) (w : World) :
  (length fs < 63)%nat ->
  ServeHTTP opts (map gin.final fs) r w =
  match check (Rate opts) (Burst opts) (keyOf opts) (when r) (entering r) w with
  | None => None
  | Some (true, l, w') => Some (admitted fs r, w')
  | Some (false, l, w') => Some (rejected opts r l (heap w'), w')
  end.
Proof.
  intros Hlen. rewrite ServeHTTP_check by (by rewrite length_map).
  destruct (check _ _ _ _ _ _) as [[[[] l] w']|]; [|done..].
  rewrite gin_facts.run_finals by reflexivity. cbn [mbind option_bind].
  rewrite gin_facts.run_skip.
  - unfold gin.step, admitted, through. cbn [fst snd].
    rewrite gin_facts.through_index. simpl gin.index.
    do 3 f_equal. lia.
  - right. unfold gin.step. cbn [fst snd]. rewrite gin_facts.index_setIndex.
    rewrite gin_facts.through_index, length_map. simpl gin.index. lia.
Qed.

Lemma IsAborted_admitted (fs : list (gin.Context -> gin.Context)) (r : Request) :
  (length fs < 61)%nat -> gin.IsAborted (admitted fs r) = false.
Proof.
  intros Hlen. unfold gin.IsAborted, admitted, gin.abortIndex.
  rewrite gin_facts.index_setIndex. apply Z.leb_gt. lia.
Qed.

Lemma IsAborted_rejected (opts : Options) (r : Request) (l : LimiterPtr)
    (h : list rate.Limiter) :
  gin.IsAborted (rejected opts r l h) = true.
Proof. reflexivity. Qed.

(** The request comes out admitted exactly when [Allow] said so. *)
Lemma decision_check (opts : Options) (fs : list (gin.Context -> gin.Context))
    (r : Request) (w : World) :
  (length fs < 61)%nat ->
  decision opts fs r w =
  (fun x => x.1.1) <$> check (Rate opts) (Burst opts) (keyOf opts) (when r) (entering r) w.
Proof.
  intros Hlen. unfold decision. rewrite ServeHTTP_finals by lia.
  destruct (check _ _ _ _ _ _) as [[[[] l] w']|]; [| |done].
  - simpl. by rewrite IsAborted_admitted.
  - reflexivity.
Qed.

(** One request in a well-formed world whose limiters all satisfy [P], a
    property that new limiters have and that [Allow] keeps. *)
Lemma ServeHTTP_wf (P : rate.Limiter -> Prop) (opts : Options)
    (fs : list (gin.Context -> gin.Context)) (r : Request) (w : World) :
  (forall now : Q, P (rate.NewLimiter now (Rate opts) (Burst opts))) ->
  (forall (now : Q) (lim : rate.Limiter), P lim -> P (rate.Allow now lim).2) ->
  (length fs < 63)%nat ->
  wf w ->
  Forall P (heap w) ->
  exists (lim0 : rate.Limiter) (l : LimiterPtr) (w' : World),
    P lim0 /\
    lim0 = default (rate.NewLimiter (when r) (Rate opts) (Burst opts))
             (limiterOf w (keyOf opts (entering r))) /\
    ServeHTTP opts (map gin.final fs) r w =
      Some (if (rate.Allow (when r) lim0).1
            then admitted fs r
            else rejected opts r l (heap w'), w') /\
    wf w' /\
    Forall P (heap w') /\
    (forall k : string, k ≠ keyOf opts (entering r) -> limiterOf w' k = limiterOf w k) /\
    match store w with
    | memory _ =>
        limiterOf w' (keyOf opts (entering r)) = Some (rate.Allow (when r) lim0).2 /\
        exists m' : memoryStore, store w' = memory m'
    | redis rs => store w' = redis rs
    end.
Proof.
  intros Hnew Hkeep Hlen Hwf Hall.
  destruct (check_wf (Rate opts) (Burst opts) (keyOf opts) (when r) (entering r) w Hwf)
    as (l & w' & Hcheck & Hwf' & Hframe & Hown & Hheap & Hstore).
  set (lim0 := default (rate.NewLimiter (when r) (Rate opts) (Burst opts))
                 (limiterOf w (keyOf opts (entering r)))) in *.
  assert (HP : P lim0).
  { subst lim0. destruct (limiterOf w (keyOf opts (entering r))) as [lim|] eqn:E.
    - simpl. apply limiterOf_elem_of in E.
      rewrite Forall_forall in Hall. by apply Hall.
    - simpl. apply Hnew. }
  exists lim0, l, w'. split; [done|]. split; [done|].
  split; [|split; [done|split; [|split; [done|]]]].
  - rewrite ServeHTTP_finals by done. rewrite Hcheck.
    by destruct (rate.Allow (when r) lim0).1.
  - rewrite Forall_forall. intros x Hx.
    destruct (Hheap x Hx) as [Hold| ->].
    + rewrite Forall_forall in Hall. by apply Hall.
    + by apply Hkeep.
  - by destruct (store w).
Qed.

(** *** Runs of requests *)

Lemma serveAll_cons (opts : Options) (rest : list (gin.HandlerFunc World))
    (r : Request) (rs : list Request) (w : World) (c : gin.Context) (w1 : World) :
  ServeHTTP opts rest r w = Some (c, w1) ->
  serveAll opts rest (r :: rs) w =
  t ← serveAll opts rest rs w1; Some (c :: t.1, t.2).
Proof.
  intros H. cbn [serveAll]. rewrite H. reflexivity.
Qed.

(** A run in a well-formed world never panics and ends in a well-formed
    world; the limiters keep a property [P] that new limiters have and that
    [Allow] keeps; a key that none of the requests has keeps its limiter as
    it is; and the store stays of its kind. *)
Lemma serveAll_wf (P : rate.Limiter -> Prop) (opts : Options)
    (fs : list (gin.Context -> gin.Context)) (rs : list Request) (w : World) :
  (forall now : Q, P (rate.NewLimiter now (Rate opts) (Burst opts))) ->
  (forall (now : Q) (lim : rate.Limiter), P lim -> P (rate.Allow now lim).2) ->
  (length fs < 63)%nat ->
  wf w ->
  Forall P (heap w) ->
  exists (resp : list gin.Context) (w' : World),
    serveAll opts (map gin.final fs) rs w = Some (resp, w') /\
    wf w' /\
    Forall P (heap w') /\
    (forall k : string, Forall (fun r => keyOf opts (entering r) ≠ k) rs ->
       limiterOf w' k = limiterOf w k) /\
    match store w with
    | memory _ => exists m' : memoryStore, store w' = memory m'
    | redis rs => store w' = redis rs
    end.
Proof.
  intros Hnew Hkeep Hlen. revert w.
  induction rs as [|r rs IH]; intros w Hwf Hall.
  { exists [], w. repeat split; try done. destruct (store w); eauto. }
  destruct (ServeHTTP_wf P opts fs r w Hnew Hkeep Hlen Hwf Hall)
    as (lim0 & l & w1 & _ & _ & Hserve & Hwf1 & Hall1 & Hframe1 & Hstore1).
  destruct (IH w1 Hwf1 Hall1) as (resp & w' & Hrun & Hwf' & Hall' & Hframe' & Hstore').
  eexists _, w'. split; [|split; [done|split; [done|split]]].
  - rewrite (serveAll_cons _ _ _ _ _ _ _ Hserve). rewrite Hrun. reflexivity.
  - intros k Hk. apply Forall_cons in Hk as [Hk Hks].
    rewrite Hframe' by done. apply Hframe1. congruence.
  - destruct (store w) as [m|rd].
    + destruct Hstore1 as [_ [m1 Hm1]]. by rewrite Hm1 in Hstore'.
    + by rewrite Hstore1 in Hstore'.
Qed.

Lemma serveAll_keeps_wf (opts : Options) (fs : list (gin.Context -> gin.Context))
    (rs : list Request) (w : World) (resp : list gin.Context) (w' : World) :
  (length fs < 63)%nat ->
  wf w ->
  serveAll opts (map gin.final fs) rs w = Some (resp, w') ->
  wf w'.
Proof.
  intros Hlen Hwf Hrun.
  destruct (serveAll_wf (fun _ => True) opts fs rs w) as (resp1 & w1 & Hrun1 & Hwf1 & _);
    try done.
  - by apply Forall_forall.
  - congruence.
Qed.

(** In a well-formed world the outcome for a request is the verdict of
    [Allow] on the limiter of its key, or on a new limiter if it has none. *)
Lemma decision_wf (opts : Options) (fs : list (gin.Context -> gin.Context))
    (r : Request) (w : World) :
  (length fs < 61)%nat ->
  wf w ->
  decision opts fs r w =
  Some (rate.Allow (when r)
          (default (rate.NewLimiter (when r) (Rate opts) (Burst opts))
             (limiterOf w (keyOf opts (entering r))))).1.
Proof.
  intros Hlen Hwf. rewrite decision_check by done.
  destruct (check_wf (Rate opts) (Burst opts) (keyOf opts) (when r) (entering r) w Hwf)
    as (l & w' & -> & _). reflexivity.
Qed.

(** C3: the handler takes the key of the request, looks it up in the store
    and calls Allow on the limiter found; on a miss, and only then, it
    creates a limiter with the configured rate and burst, stores it under
    the key and calls Allow on that one. When Allow admits, the next handler
    of the chain is called with the request context; when Allow rejects, the
    outcome is the context the reject handler returned for the request
    context and the limiter, aborted, and it does not depend on the handlers
    behind the middleware. *)
Theorem New_control_flow (opts : Options) (rest : list (gin.HandlerFunc World))
    (r : Request) (w : World) :
  (length rest < 63)%nat ->
  ServeHTTP opts rest r w =
    match check (Rate opts) (Burst opts) (keyOf opts) (when r) (entering r) w with
    | None => None
    | Some (true, l, w') =>
        s ← gin.run rest 1 (gin.setIndex 1 (entering r), w'); gin.run rest 1 (gin.step s)
    | Some (false, l, w') =>
        Some (gin.setIndex 64 (onLimitExceededOf opts (entering r) l (heap w')), w')
    end /\
  (forall p : LimiterPtr,
     Get (store w) (keyOf opts (entering r)) = (p, true) ->
     check (Rate opts) (Burst opts) (keyOf opts) (when r) (entering r) w =
       lim ← deref (heap w) p;
       Some ((rate.Allow (when r) lim).1, p,
             {| heap := assign (heap w) p (rate.Allow (when r) lim).2;
                store := store w |})) /\
  (forall p : LimiterPtr,
     Get (store w) (keyOf opts (entering r)) = (p, false) ->
     check (Rate opts) (Burst opts) (keyOf opts) (when r) (entering r) w =
       Some ((rate.Allow (when r) (rate.NewLimiter (when r) (Rate opts) (Burst opts))).1,
             Ref (length (heap w)),
             {| heap := heap w ++
                  [(rate.Allow (when r) (rate.NewLimiter (when r) (Rate opts) (Burst opts))).2];
                store := Set_ (store w) (keyOf opts (entering r)) (Ref (length (heap w))) |})) /\
  (forall (h : gin.HandlerFunc World) (tl : list (gin.HandlerFunc World)) (w' : World),
     gin.run (h :: tl) 1 (gin.setIndex 1 (entering r), w') =
       s ← h (fun s' => gin.run tl 2 (gin.step s')) (gin.setIndex 1 (entering r), w');
       gin.run tl 2 (gin.step s)).
Proof.
  intros Hlen. split; [|split; [|split]].
  - by apply ServeHTTP_check.
  - intros p. apply check_hit.
  - intros p. apply check_miss.
  - intros h tl w'. by rewrite gin_facts.run_here.
Qed.

(** The first test of the package: two requests in a row from one client;
    the second is served in the state the first has left. *)
Lemma New_control_flow_witness :
  ServeHTTP Test.DefaultRateLimiter [gin.final Test.OK] (Test.GET 0 "192.0.2.1" "k")
    (start Test.DefaultRateLimiter)
  = Some (admitted [Test.OK] (Test.GET 0 "192.0.2.1" "k"),
          {| heap := [(rate.Allow 0 (rate.NewLimiter 0 100 1)).2];
             store := memory (Set_ newMemoryStore "192.0.2.1" (Ref 0)) |}) /\
  ServeHTTP Test.DefaultRateLimiter [gin.final Test.OK] (Test.GET 0 "192.0.2.1" "k")
    {| heap := [(rate.Allow 0 (rate.NewLimiter 0 100 1)).2];
       store := memory (Set_ newMemoryStore "192.0.2.1" (Ref 0)) |}
  = Some (gin.setIndex 64
            (gin.String_ 429 "Too Many Requests" (entering (Test.GET 0 "192.0.2.1" "k"))),
          {| heap := [(rate.Allow 0 (rate.Allow 0 (rate.NewLimiter 0 100 1)).2).2];
             store := memory (Set_ newMemoryStore "192.0.2.1" (Ref 0)) |}).
Proof.
  split.
  - rewrite (proj1 (New_control_flow Test.DefaultRateLimiter [gin.final Test.OK]
                      (Test.GET 0 "192.0.2.1" "k") (start Test.DefaultRateLimiter)
                      ltac:(simpl; lia))).
    reflexivity.
  - rewrite (proj1 (New_control_flow Test.DefaultRateLimiter [gin.final Test.OK]
                      (Test.GET 0 "192.0.2.1" "k")
                      {| heap := [(rate.Allow 0 (rate.NewLimiter 0 100 1)).2];
                         store := memory (Set_ newMemoryStore "192.0.2.1" (Ref 0)) |}
                      ltac:(simpl; lia))).
    reflexivity.
Defined.

(** C7: a nil store is replaced by a new in-memory store, in which no
    key is found; a nil key function by the one that returns the client
    address of the request; a nil reject handler by the one that answers
    429 with the plain text "Too Many Requests". *)
Theorem New_defaults (opts : Options) :
  (Store_ opts = None ->
     (New opts).1 = memory newMemoryStore /\
     forall key : string, Get (New opts).1 key = (NilLimiter, false)) /\
  (KeyFunc opts = None ->
     (New opts).2 = handler (Rate opts) (Burst opts) defaultKeyFunc (onLimitExceededOf opts) /\
     forall r : Request, defaultKeyFunc (entering r) = remoteIP r) /\
  (OnLimitExceeded opts = None ->
     (New opts).2 = handler (Rate opts) (Burst opts) (keyOf opts) defaultOnLimitExceeded /\
     forall (r : Request) (l : LimiterPtr) (h : list rate.Limiter),
       gin.status (defaultOnLimitExceeded (entering r) l h) = 429%Z /\
       gin.contentType (defaultOnLimitExceeded (entering r) l h) = "text/plain; charset=utf-8" /\
       gin.body (defaultOnLimitExceeded (entering r) l h) = "Too Many Requests").
Proof.
  split; [|split].
  - intros H. rewrite New_store, H. split; [done|].
    intros key. apply store_facts.memoryStore_Get_new.
  - intros H. rewrite New_handler. unfold keyOf. rewrite H. done.
  - intros H. rewrite New_handler. unfold onLimitExceededOf. rewrite H. done.
Qed.

(** The first configuration of the tests leaves all three unset. *)
Lemma New_defaults_witness :
  (New Test.DefaultRateLimiter).1 = memory newMemoryStore /\
  (New Test.DefaultRateLimiter).2 = handler 100 1 defaultKeyFunc defaultOnLimitExceeded /\
  gin.status (defaultOnLimitExceeded (entering (Test.GET 0 "192.0.2.1" "k")) (Ref 0) [])
    = 429%Z.
Proof.
  destruct (New_defaults Test.DefaultRateLimiter) as (Hs & Hk & Hr).
  split; [|split].
  - exact (proj1 (Hs eq_refl)).
  - exact (proj1 (Hk eq_refl)).
  - exact (proj1 (proj2 (Hr eq_refl) (Test.GET 0 "192.0.2.1" "k") (Ref 0) [])).
Defined.

(** C8: in a state the middleware has reached with a store of its own,
    serving requests whose keys all differ from B leaves the limiter stored
    under B as it is, and the next request with key B is admitted or
    rejected as it would have been without them. *)
Theorem per_key_isolation (opts : Options) (fs : list (gin.Context -> gin.Context))
    (before rsA : list Request) (rB : Request) (resp : list gin.Context) (w : World) :
  fresh_store (New opts).1 = true ->
  (length fs < 61)%nat ->
  serveAll opts (map gin.final fs) before (start opts) = Some (resp, w) ->
  Forall (fun r => keyOf opts (entering r) ≠ keyOf opts (entering rB)) rsA ->
  exists (respA : list gin.Context) (w' : World),
    serveAll opts (map gin.final fs) rsA w = Some (respA, w') /\
    limiterOf w' (keyOf opts (entering rB)) = limiterOf w (keyOf opts (entering rB)) /\
    decision opts fs rB w' = decision opts fs rB w.
Proof.
  intros Hfresh Hlen Hbefore HA.
  assert (Hwf : wf w).
  { apply (serveAll_keeps_wf opts fs before (start opts) resp w); [lia| |done].
    by apply wf_start. }
  destruct (serveAll_wf (fun _ => True) opts fs rsA w)
    as (respA & w' & Hrun & Hwf' & _ & Hframe & _); try done; [lia| |].
  { by apply Forall_forall. }
  exists respA, w'. split; [done|]. split; [by apply Hframe|].
  rewrite !decision_wf by done. by rewrite Hframe.
Qed.

(** C10: with the Redis-backed store and a burst of at least one, every
    request of a run is answered by the handlers behind the middleware,
    none is aborted, and each request has left a limiter of its own,
    called once, on the heap. *)
Theorem redis_store_admits_all (opts : Options) (cl : redisClient)
    (fs : list (gin.Context -> gin.Context)) (rs : list Request) :
  Store_ opts = Some (NewRedisStore cl) ->
  0 < Rate opts ->
  (1 <= Burst opts)%Z ->
  (length fs < 61)%nat ->
  serveAll opts (map gin.final fs) rs (start opts) =
    Some (map (admitted fs) rs,
          {| heap := map (fun r => (rate.Allow (when r)
                                      (rate.NewLimiter (when r) (Rate opts) (Burst opts))).2) rs;
             store := NewRedisStore cl |}) /\
  Forall (fun c => gin.IsAborted c = false) (map (admitted fs) rs).
Proof.
  intros Hstore Hrate Hburst Hlen. split.
  - assert (Hgen : forall w : World, store w = NewRedisStore cl ->
      serveAll opts (map gin.final fs) rs w =
        Some (map (admitted fs) rs,
              {| heap := heap w ++
                   map (fun r => (rate.Allow (when r)
                                    (rate.NewLimiter (when r) (Rate opts) (Burst opts))).2) rs;
                 store := NewRedisStore cl |})).
    { induction rs as [|r rs IH]; intros w Hw.
      { simpl. rewrite app_nil_r. destruct w. simpl in Hw. by rewrite Hw. }
      assert (Hserve : ServeHTTP opts (map gin.final fs) r w =
        Some (admitted fs r,
              {| heap := heap w ++ [(rate.Allow (when r)
                                       (rate.NewLimiter (when r) (Rate opts) (Burst opts))).2];
                 store := NewRedisStore cl |})).
      { rewrite ServeHTTP_finals by lia.
        rewrite (check_miss _ _ _ _ _ _ NilLimiter) by (by rewrite Hw).
        rewrite rate_facts.Allow_new by done. by rewrite Hw. }
      rewrite (serveAll_cons _ _ _ _ _ _ _ Hserve).
      rewrite IH by done. cbn [heap mbind option_bind fst snd map].
      by rewrite <- app_assoc. }
    rewrite Hgen; [done|]. unfold start. cbn [store]. by rewrite New_store, Hstore.
  - apply Forall_forall. intros c Hc.
    apply list_elem_of_fmap in Hc as (r & -> & _). by apply IsAborted_admitted.
Qed.

(** *** Degenerate configurations *)

(** Without room for a token every request of every run is rejected. *)
Lemma zero_burst_rejects (opts : Options) :
  fresh_store (New opts).1 = true ->
  Burst opts = 0%Z ->
  rejects_everything opts.
Proof.
  intros Hfresh Hb fs rs Hlen.
  assert (Hgen : forall w : World, wf w ->
    Forall (fun lim => rate.burst lim = 0%Z) (heap w) ->
    exists (resp : list gin.Context) (w' : World),
      serveAll opts (map gin.final fs) rs w = Some (resp, w') /\
      Forall (fun c => gin.IsAborted c = true) resp).
  { induction rs as [|r rs IH]; intros w Hwf Hall.
    { exists [], w. split; [done|]. constructor. }
    assert (Hnew : forall now : Q,
              rate.burst (rate.NewLimiter now (Rate opts) (Burst opts)) = 0%Z) by done.
    assert (Hkeep : forall (now : Q) (lim : rate.Limiter),
              rate.burst lim = 0%Z -> rate.burst (rate.Allow now lim).2 = 0%Z).
    { intros now lim Hlim. by destruct (rate_facts.Allow_fields now lim) as (_ & -> & _). }
    assert (Hlen' : (length fs < 63)%nat) by lia.
    destruct (ServeHTTP_wf (fun lim => rate.burst lim = 0%Z) opts fs r w
                Hnew Hkeep Hlen' Hwf Hall)
      as (lim0 & l & w1 & H0 & _ & Hserve & Hwf1 & Hall1 & _).
    rewrite rate_facts.Allow_no_room in Hserve by lia.
    destruct (IH w1 Hwf1 Hall1) as (resp & w' & Hrun & Hab).
    rewrite (serveAll_cons _ _ _ _ _ _ _ Hserve), Hrun.
    eexists _, w'. split; [reflexivity|]. constructor; [|done]. reflexivity. }
  apply Hgen; [by apply wf_start|]. unfold start. simpl. constructor.
Qed.

Lemma limiterOf_start (opts : Options) (key : string) :
  fresh_store (New opts).1 = true ->
  limiterOf (start opts) key = None.
Proof.
  intros Hfresh. destruct (New opts).1 as [m|rd] eqn:Hs.
  - rewrite (limiterOf_memory _ m) by done.
    apply bool_decide_eq_true in Hfresh. by rewrite Hfresh, lookup_empty.
  - by apply (limiterOf_redis _ rd).
Qed.

(** With rate zero no limiter ever holds a token, and every request of
    every run is rejected. *)
Lemma zero_rate_rejects (opts : Options) :
  fresh_store (New opts).1 = true ->
  Rate opts == 0 ->
  rejects_everything opts.
Proof.
  intros Hfresh Hr fs rs Hlen.
  assert (Hnew : forall now : Q,
    (fun lim => rate.limit lim == 0 /\ rate.tokens lim < 1)
      (rate.NewLimiter now (Rate opts) (Burst opts))).
  { intros now. cbn [rate.NewLimiter rate.limit rate.tokens]. split; [done|].
    destruct (Qlt_le_dec 0 (Rate opts)); lra. }
  assert (Hkeep : forall (now : Q) (lim : rate.Limiter),
    (fun lim => rate.limit lim == 0 /\ rate.tokens lim < 1) lim ->
    (fun lim => rate.limit lim == 0 /\ rate.tokens lim < 1) (rate.Allow now lim).2).
  { intros now lim [H0 Hdry]. by destruct (rate_facts.Allow_dry now lim H0 Hdry) as (_ & ? & ?). }
  assert (Hlen' : (length fs < 63)%nat) by lia.
  assert (Hgen : forall w : World, wf w ->
    Forall (fun lim => rate.limit lim == 0 /\ rate.tokens lim < 1) (heap w) ->
    exists (resp : list gin.Context) (w' : World),
      serveAll opts (map gin.final fs) rs w = Some (resp, w') /\
      Forall (fun c => gin.IsAborted c = true) resp).
  { induction rs as [|r rs IH]; intros w Hwf Hall.
    { exists [], w. split; [done|]. constructor. }
    destruct (ServeHTTP_wf _ opts fs r w Hnew Hkeep Hlen' Hwf Hall)
      as (lim0 & l & w1 & [H0 Hdry] & _ & Hserve & Hwf1 & Hall1 & _).
    destruct (rate_facts.Allow_dry (when r) lim0 H0 Hdry) as (Hno & _).
    rewrite Hno in Hserve.
    destruct (IH w1 Hwf1 Hall1) as (resp & w' & Hrun & Hab).
    rewrite (serveAll_cons _ _ _ _ _ _ _ Hserve), Hrun.
    eexists _, w'. split; [reflexivity|]. constructor; [|done]. reflexivity. }
  apply Hgen; [by apply wf_start|]. unfold start. simpl. constructor.
Qed.

(** C4: a middleware whose burst is zero or whose rate is zero is
    constructed like any other, and every request of every run is rejected,
    whatever its key: each call of Allow on a limiter with that rate and
    that burst returns false. *)
Theorem degenerate_configuration_rejects_all (opts : Options) :
  fresh_store (New opts).1 = true ->
  Burst opts = 0%Z \/ Rate opts == 0 ->
  rejects_everything opts /\
  forall (t0 : Q) (ts : list Q),
    Forall (fun ok => ok = false)
      (rate.AllowAt ts (rate.NewLimiter t0 (Rate opts) (Burst opts))).1.
Proof.
  intros Hfresh Hdeg. split.
  - destruct Hdeg as [Hb|Hr]; [by apply zero_burst_rejects|by apply zero_rate_rejects].
  - intros t0 ts.
    assert (Hgen : forall lim : rate.Limiter,
      rate.burst lim = 0%Z \/ (rate.limit lim == 0 /\ rate.tokens lim < 1) ->
      Forall (fun ok => ok = false) (rate.AllowAt ts lim).1).
    { induction ts as [|now ts IH]; intros lim Hlim; [constructor|].
      rewrite rate_facts.AllowAt_cons. cbn [fst]. constructor.
      - destruct Hlim as [Hb|[H0 Hdry]].
        + apply rate_facts.Allow_no_room. lia.
        + by destruct (rate_facts.Allow_dry now lim H0 Hdry) as (? & _).
      - apply IH. destruct Hlim as [Hb|[H0 Hdry]].
        + left. by destruct (rate_facts.Allow_fields now lim) as (_ & -> & _).
        + right. by destruct (rate_facts.Allow_dry now lim H0 Hdry) as (_ & ? & ?). }
    apply Hgen. cbn [rate.NewLimiter rate.burst rate.limit rate.tokens].
    destruct Hdeg as [Hb|Hr]; [by left|right]. split; [done|].
    destruct (Qlt_le_dec 0 (Rate opts)); lra.
Qed.

(** Rate zero with burst one, and burst zero at the rate of the tests: two
    requests of one client, a second apart. *)
Lemma degenerate_configuration_rejects_all_witness :
  (exists (resp : list gin.Context) (w' : World),
     serveAll Test.ZeroRate (map gin.final [Test.OK])
       [Test.GET 0 "192.0.2.1" "k"; Test.GET 1 "192.0.2.1" "k"] (start Test.ZeroRate)
       = Some (resp, w') /\
     Forall (fun c => gin.IsAborted c = true) resp) /\
  (exists (resp : list gin.Context) (w' : World),
     serveAll Test.ZeroBurst (map gin.final [Test.OK])
       [Test.GET 0 "192.0.2.1" "k"; Test.GET 1 "192.0.2.1" "k"] (start Test.ZeroBurst)
       = Some (resp, w') /\
     Forall (fun c => gin.IsAborted c = true) resp).
Proof.
  split.
  - apply (proj1 (degenerate_configuration_rejects_all Test.ZeroRate eq_refl
                    (or_intror (Qeq_refl 0)))).
    simpl. lia.
  - apply (proj1 (degenerate_configuration_rejects_all Test.ZeroBurst eq_refl
                    (or_introl eq_refl))).
    simpl. lia.
Defined.

(** Client B is served, then client A twice, then B again. *)
Lemma per_key_isolation_witness :
  exists (respA : list gin.Context) (w' : World),
    serveAll Test.DefaultRateLimiter (map gin.final [Test.OK])
      [Test.GET 0 "192.0.2.1" "a"; Test.GET 0 "192.0.2.1" "a"]
      {| heap := [(rate.Allow 0 (rate.NewLimiter 0 100 1)).2];
         store := memory (Set_ newMemoryStore "192.0.2.2" (Ref 0)) |}
      = Some (respA, w') /\
    limiterOf w' "192.0.2.2" = Some (rate.Allow 0 (rate.NewLimiter 0 100 1)).2 /\
    decision Test.DefaultRateLimiter [Test.OK] (Test.GET 0 "192.0.2.2" "b") w' = Some false.
Proof.
  destruct (per_key_isolation Test.DefaultRateLimiter [Test.OK]
              [Test.GET 0 "192.0.2.2" "b"]
              [Test.GET 0 "192.0.2.1" "a"; Test.GET 0 "192.0.2.1" "a"]
              (Test.GET 0 "192.0.2.2" "b")
              [admitted [Test.OK] (Test.GET 0 "192.0.2.2" "b")]
              {| heap := [(rate.Allow 0 (rate.NewLimiter 0 100 1)).2];
                 store := memory (Set_ newMemoryStore "192.0.2.2" (Ref 0)) |})
    as (respA & w' & Hrun & Hlim & Hdec).
  - reflexivity.
  - simpl. lia.
  - reflexivity.
  - repeat constructor; simpl; discriminate.
  - exists respA, w'. split; [exact Hrun|]. split.
    + exact (eq_trans Hlim eq_refl).
    + exact (eq_trans Hdec eq_refl).
Defined.

(** The Redis usage of the example program, three requests of one client
    at the same instant. *)
Lemma redis_store_admits_all_witness :
  serveAll Test.RedisUsage (map gin.final [Test.OK])
    [Test.GET 0 "192.0.2.1" "k"; Test.GET 0 "192.0.2.1" "k"; Test.GET 0 "192.0.2.1" "k"]
    (start Test.RedisUsage)
  = Some (map (admitted [Test.OK])
            [Test.GET 0 "192.0.2.1" "k"; Test.GET 0 "192.0.2.1" "k";
             Test.GET 0 "192.0.2.1" "k"],
          {| heap := [(rate.Allow 0 (rate.NewLimiter 0 1 1)).2;
                      (rate.Allow 0 (rate.NewLimiter 0 1 1)).2;
                      (rate.Allow 0 (rate.NewLimiter 0 1 1)).2];
             store := NewRedisStore {| Addr := "localhost:6379" |} |}).
Proof.
  apply (redis_store_admits_all Test.RedisUsage {| Addr := "localhost:6379" |} [Test.OK]
           [Test.GET 0 "192.0.2.1" "k"; Test.GET 0 "192.0.2.1" "k";
            Test.GET 0 "192.0.2.1" "k"]).
  - reflexivity.
  - reflexivity.
  - simpl. lia.
  - simpl. lia.
Defined.

End middleware_facts.

(** ** Further properties of the stores *)

Module store_more.

Lemma setAll_cons {T : Type} `{Store T} (op : string * LimiterPtr)
    (ops : list (string * LimiterPtr)) (s : T) :
  setAll (op :: ops) s = setAll ops (Set_ s op.1 op.2).
Proof. reflexivity. Qed.

(** X1: after any run of Set calls on an in-memory store, Get of a key
    returns the pointer of the last Set for that key, with true; if the run
    has no Set for the key, Get returns what it returned before the run. *)
Theorem memoryStore_last_write_wins (ops : list (string * LimiterPtr)) (s : memoryStore)
    (key : string) :
  Get (setAll ops s) key =
  match lastSet key ops with
  | Some l => (l, true)
  | None => Get s key
  end.
Proof.
  revert s. induction ops as [|[k l] ops IH]; intros s; [reflexivity|].
  rewrite setAll_cons, IH. cbn [lastSet fst snd].
  destruct (lastSet key ops) as [l'|]; [reflexivity|].
  destruct (decide (k = key)) as [->|Hne].
  - apply store_facts.memoryStore_Get_Set.
  - by apply store_facts.memoryStore_Get_Set_ne.
Qed.

(** X2: on the in-memory store a second Set for a key wipes out the first,
    Set calls for different keys can be swapped, and setting a key to the
    pointer that Get has just found for it changes nothing. *)
Theorem memoryStore_Set_algebra (s : memoryStore) (k k' : string) (l l' : LimiterPtr) :
  Set_ (Set_ s k l) k l' = Set_ s k l' /\
  (k ≠ k' -> Set_ (Set_ s k l) k' l' = Set_ (Set_ s k' l') k l) /\
  (Get s k = (l, true) -> Set_ s k l = s).
Proof.
  destruct s as [m]. simpl. unfold memoryStore_Set, memoryStore_Get. simpl.
  split; [|split].
  - by rewrite insert_insert_eq.
  - intros Hne. by rewrite insert_insert_ne.
  - destruct (m !! k) as [p|] eqn:E; [|done].
    intros [= ->]. by rewrite insert_id.
Qed.

Lemma memoryStore_Set_algebra_witness :
  Set_ (Set_ newMemoryStore "a" (Ref 0)) "b" (Ref 1)
    = Set_ (Set_ newMemoryStore "b" (Ref 1)) "a" (Ref 0) /\
  Set_ (Set_ newMemoryStore "a" (Ref 0)) "a" (Ref 0) = Set_ newMemoryStore "a" (Ref 0).
Proof.
  destruct (memoryStore_Set_algebra newMemoryStore "a" "b" (Ref 0) (Ref 1))
    as (_ & Hswap & _).
  destruct (memoryStore_Set_algebra (Set_ newMemoryStore "a" (Ref 0)) "a" "a" (Ref 0) (Ref 0))
    as (_ & _ & Hid).
  split.
  - apply Hswap. discriminate.
  - apply Hid. reflexivity.
Defined.

End store_more.

(** ** Further properties of the middleware *)

Module middleware_more.
Import middleware_facts.

(** *** A limiter the handler cannot call *)

Lemma check_panics (r : Q) (b : Z) (keyFunc : gin.Context -> string) (now : Q)
    (c : gin.Context) (w : World) (p : LimiterPtr) :
  Get (store w) (keyFunc c) = (p, true) ->
  deref (heap w) p = None ->
  check r b keyFunc now c w = None.
Proof.
  intros Hget Hnone. rewrite (check_hit _ _ _ _ _ _ p) by done. by rewrite Hnone.
Qed.

(** X3: when the store reports the key of a request as present but the
    pointer it returns is nil, or is not the address of a limiter, the
    handler panics on the call of Allow: there is no response, whatever the
    options and the handlers behind the middleware. The in-memory store
    reports a key as present after Set(key, nil). *)
Theorem stored_nil_panics (opts : Options) (rest : list (gin.HandlerFunc World))
    (r : Request) (w : World) (p : LimiterPtr) :
  Get (store w) (keyOf opts (entering r)) = (p, true) ->
  deref (heap w) p = None ->
  ServeHTTP opts rest r w = None.
Proof.
  intros Hget Hnone. unfold ServeHTTP, gin.Next.
  rewrite gin_facts.run_here by reflexivity.
  rewrite New_handler. unfold handler at 1.
  change (gin.step (contextOf r, w)).1 with (entering r).
  change (gin.step (contextOf r, w)).2 with w.
  by rewrite (check_panics _ _ _ _ _ _ p).
Qed.

Lemma stored_nil_panics_witness :
  Get (memory (Set_ newMemoryStore "192.0.2.1" NilLimiter)) "192.0.2.1" = (NilLimiter, true) /\
  ServeHTTP Test.DefaultRateLimiter [gin.final Test.OK] (Test.GET 0 "192.0.2.1" "k")
    {| heap := []; store := memory (Set_ newMemoryStore "192.0.2.1" NilLimiter) |} = None.
Proof.
  split; [reflexivity|].
  apply (stored_nil_panics Test.DefaultRateLimiter [gin.final Test.OK]
           (Test.GET 0 "192.0.2.1" "k")
           {| heap := []; store := memory (Set_ newMemoryStore "192.0.2.1" NilLimiter) |}
           NilLimiter).
  - reflexivity.
  - reflexivity.
Defined.

(** *** Runs from construction *)

(** X4: a middleware built with the default store, or with a store of the
    package in which nothing has been set, never panics: every request of
    a run gets a response, and the response is either what the handlers
    behind the middleware made of the request, or what the reject handler
    made of it, aborted. *)
Theorem run_never_panics (opts : Options) (fs : list (gin.Context -> gin.Context))
    (rs : list Request) :
  fresh_store (New opts).1 = true ->
  (length fs < 63)%nat ->
  exists (resp : list gin.Context) (w' : World),
    serveAll opts (map gin.final fs) rs (start opts) = Some (resp, w') /\
    Forall2 (fun r c => c = admitted fs r \/
                        exists (l : LimiterPtr) (h : list rate.Limiter),
                          c = rejected opts r l h) rs resp.
Proof.
  intros Hfresh Hlen.
  assert (Hgen : forall w : World, wf w ->
    exists (resp : list gin.Context) (w' : World),
      serveAll opts (map gin.final fs) rs w = Some (resp, w') /\
      Forall2 (fun r c => c = admitted fs r \/
                          exists (l : LimiterPtr) (h : list rate.Limiter),
                            c = rejected opts r l h) rs resp).
  { induction rs as [|r rs IH]; intros w Hwf.
    { exists [], w. split; [done|constructor]. }
    destruct (ServeHTTP_wf (fun _ => True) opts fs r w)
      as (lim0 & l & w1 & _ & _ & Hserve & Hwf1 & _); try done.
    { by apply Forall_forall. }
    destruct (IH w1 Hwf1) as (resp & w' & Hrun & Hall).
    rewrite (serveAll_cons _ _ _ _ _ _ _ Hserve), Hrun.
    eexists _, w'. split; [reflexivity|]. constructor; [|done].
    destruct (rate.Allow (when r) lim0).1; eauto. }
  apply Hgen. by apply wf_start.
Qed.

Lemma run_never_panics_witness :
  exists (resp : list gin.Context) (w' : World),
    serveAll Test.DefaultRateLimiter (map gin.final [Test.OK])
      [Test.GET 0 "192.0.2.1" "k"; Test.GET 0 "192.0.2.1" "k"]
      (start Test.DefaultRateLimiter) = Some (resp, w') /\
    length resp = 2%nat.
Proof.
  destruct (run_never_panics Test.DefaultRateLimiter [Test.OK]
              [Test.GET 0 "192.0.2.1" "k"; Test.GET 0 "192.0.2.1" "k"])
    as (resp & w' & Hrun & Hall).
  - reflexivity.
  - simpl. lia.
  - exists resp, w'. split; [exact Hrun|].
    apply Forall2_length in Hall. simpl in Hall. by rewrite <- Hall.
Defined.

(** X5: in the state a run from construction has left, every pointer the
    store returns as found is the address of a limiter on the heap, no two
    keys are served by the same limiter, and every limiter carries the
    rate and the burst of the options. *)
Theorem run_keeps_store_sound (opts : Options) (fs : list (gin.Context -> gin.Context))
    (rs : list Request) (resp : list gin.Context) (w' : World) :
  fresh_store (New opts).1 = true ->
  (length fs < 63)%nat ->
  serveAll opts (map gin.final fs) rs (start opts) = Some (resp, w') ->
  (forall (k : string) (p : LimiterPtr), Get (store w') k = (p, true) ->
     exists (a : nat) (lim : rate.Limiter), p = Ref a /\ heap w' !! a = Some lim) /\
  (forall (k1 k2 : string) (p : LimiterPtr),
     Get (store w') k1 = (p, true) -> Get (store w') k2 = (p, true) -> k1 = k2) /\
  Forall (fun lim => rate.limit lim = Rate opts /\ rate.burst lim = Burst opts) (heap w').
Proof.
  intros Hfresh Hlen Hrun.
  destruct (serveAll_wf (fun lim => rate.limit lim = Rate opts /\ rate.burst lim = Burst opts)
              opts fs rs (start opts)) as (resp1 & w1 & Hrun1 & Hwf & Hall & _); try done.
  { intros now lim [Hl Hb].
    by destruct (rate_facts.Allow_fields now lim) as (-> & -> & _). }
  { by apply wf_start. }
  rewrite Hrun in Hrun1. injection Hrun1 as <- <-.
  split; [|split; [|done]].
  - intros k p Hget. unfold wf in Hwf. destruct (store w') as [m|rd]; [|done].
    destruct Hwf as [Hval _]. simpl in Hget. unfold memoryStore_Get in Hget.
    destruct (limiters m !! k) as [q|] eqn:E; [|done]. injection Hget as ->.
    destruct (Hval _ _ E) as (a & -> & Ha).
    destruct (lookup_lt_is_Some_2 (heap w') a Ha) as [lim Hlim]. eauto.
  - intros k1 k2 p H1 H2. unfold wf in Hwf. destruct (store w') as [m|rd]; [|done].
    destruct Hwf as [_ Hinj]. simpl in H1, H2. unfold memoryStore_Get in H1, H2.
    destruct (limiters m !! k1) as [q1|] eqn:E1; [|done].
    destruct (limiters m !! k2) as [q2|] eqn:E2; [|done].
    injection H1 as ->. injection H2 as ->. by apply (Hinj _ _ p).
Qed.

Lemma run_keeps_store_sound_witness :
  Forall (fun lim => rate.limit lim = 100 /\ rate.burst lim = 1%Z)
    [(rate.Allow 0 (rate.Allow 0 (rate.NewLimiter 0 100 1)).2).2;
     (rate.Allow 0 (rate.NewLimiter 0 100 1)).2].
Proof.
  apply (run_keeps_store_sound Test.DefaultRateLimiter [Test.OK]
           [Test.GET 0 "192.0.2.1" "k"; Test.GET 0 "192.0.2.1" "k"; Test.GET 0 "192.0.2.2" "k"]
           [admitted [Test.OK] (Test.GET 0 "192.0.2.1" "k");
            rejected Test.DefaultRateLimiter (Test.GET 0 "192.0.2.1" "k") (Ref 0)
              [(rate.Allow 0 (rate.Allow 0 (rate.NewLimiter 0 100 1)).2).2];
            admitted [Test.OK] (Test.GET 0 "192.0.2.2" "k")]
           {| heap := [(rate.Allow 0 (rate.Allow 0 (rate.NewLimiter 0 100 1)).2).2;
                       (rate.Allow 0 (rate.NewLimiter 0 100 1)).2];
              store := memory (Set_ (Set_ newMemoryStore "192.0.2.1" (Ref 0))
                                 "192.0.2.2" (Ref 1)) |}).
  - reflexivity.
  - simpl. lia.
  - reflexivity.
Defined.

(** *** What the handler reads of a request *)

Lemma check_key_only (r : Q) (b : Z) (keyFunc : gin.Context -> string) (now : Q)
    (c1 c2 : gin.Context) (w : World) :
  keyFunc c1 = keyFunc c2 ->
  check r b keyFunc now c1 w = check r b keyFunc now c2 w.
Proof.
  intros H. unfold check. by rewrite H.
Qed.

Lemma outcome_cons (opts : Options) (fs : list (gin.Context -> gin.Context))
    (r : Request) (rs : list Request) (w : World) :
  (length fs < 61)%nat ->
  outcome (serveAll opts (map gin.final fs) (r :: rs) w) =
  x ← check (Rate opts) (Burst opts) (keyOf opts) (when r) (entering r) w;
  t ← outcome (serveAll opts (map gin.final fs) rs x.2);
  Some (x.1.1 :: t.1, t.2).
Proof.
  intros Hlen. cbn [serveAll]. rewrite ServeHTTP_finals by lia.
  destruct (check _ _ _ _ _ _) as [[[[] l] w1]|]; cbn [mbind option_bind fst snd]; [| |done].
  - destruct (serveAll _ _ rs w1) as [[resp w2]|]; [|done].
    unfold outcome. simpl. by rewrite IsAborted_admitted.
  - destruct (serveAll _ _ rs w1) as [[resp w2]|]; [|done].
    reflexivity.
Qed.

(** X6: the handler reads nothing of a request but its key and the clock.
    Two runs from the same state whose requests have, one by one, the same
    key and the same time admit and reject alike and leave the same state,
    whatever the addresses and headers of the requests. *)
Theorem run_depends_on_keys_only (opts : Options) (fs : list (gin.Context -> gin.Context))
    (rs1 rs2 : list Request) (w : World) :
  (length fs < 61)%nat ->
  map (stamp opts) rs1 = map (stamp opts) rs2 ->
  outcome (serveAll opts (map gin.final fs) rs1 w) =
  outcome (serveAll opts (map gin.final fs) rs2 w).
Proof.
  intros Hlen. revert rs2 w.
  induction rs1 as [|r1 rs1 IH]; intros [|r2 rs2] w Hmap; try done.
  cbn [map] in Hmap. injection Hmap as Hkey Hwhen Hmap.
  rewrite !outcome_cons by done.
  rewrite Hwhen, (check_key_only _ _ _ _ (entering r1) (entering r2)) by done.
  destruct (check _ _ _ _ _ _) as [[[ok l] w1]|]; [|done].
  cbn [mbind option_bind fst snd]. by rewrite (IH rs2 w1).
Qed.

(** Under the key function of the tests the address of the client does not
    matter. *)
Lemma run_depends_on_keys_only_witness :
  outcome (serveAll Test.CustomKeyFunc (map gin.final [Test.OK])
             [Test.GET 0 "192.0.2.1" "test-key"; Test.GET 0 "192.0.2.1" "test-key"]
             (start Test.CustomKeyFunc)) =
  outcome (serveAll Test.CustomKeyFunc (map gin.final [Test.OK])
             [Test.GET 0 "192.0.2.1" "test-key"; Test.GET 0 "192.0.2.2" "test-key"]
             (start Test.CustomKeyFunc)).
Proof.
  apply (run_depends_on_keys_only Test.CustomKeyFunc [Test.OK]).
  - simpl. lia.
  - reflexivity.
Defined.

(** X7: a limiter found in the store is used as it is. For a request whose
    key the store reports as present, two middlewares that share the state
    and compute the same key admit or reject alike and leave the same
    state, even if their rates and bursts differ: the rate and the burst of
    the options only go into limiters made on a miss. *)
Theorem found_limiter_ignores_options (opts1 opts2 : Options)
    (fs : list (gin.Context -> gin.Context)) (r : Request) (w : World) (p : LimiterPtr) :
  (length fs < 61)%nat ->
  keyOf opts1 (entering r) = keyOf opts2 (entering r) ->
  Get (store w) (keyOf opts1 (entering r)) = (p, true) ->
  outcome (serveAll opts1 (map gin.final fs) [r] w) =
  outcome (serveAll opts2 (map gin.final fs) [r] w).
Proof.
  intros Hlen Hkey Hget. rewrite !outcome_cons by done.
  rewrite (check_hit _ _ _ _ _ _ p) by done.
  rewrite (check_hit _ _ _ _ _ _ p) by (by rewrite <- Hkey).
  reflexivity.
Qed.

(** A middleware without room for a token admits a request whose key
    already has a limiter with a token in the store it was given. *)
Lemma found_limiter_ignores_options_witness :
  outcome (serveAll Test.Degenerate (map gin.final [Test.OK]) [Test.GET 0 "192.0.2.1" "k"]
             {| heap := [rate.NewLimiter 0 100 1];
                store := memory (Set_ newMemoryStore "192.0.2.1" (Ref 0)) |}) =
  outcome (serveAll Test.DefaultRateLimiter (map gin.final [Test.OK])
             [Test.GET 0 "192.0.2.1" "k"]
             {| heap := [rate.NewLimiter 0 100 1];
                store := memory (Set_ newMemoryStore "192.0.2.1" (Ref 0)) |}).
Proof.
  apply (found_limiter_ignores_options Test.Degenerate Test.DefaultRateLimiter [Test.OK]
           (Test.GET 0 "192.0.2.1" "k")
           {| heap := [rate.NewLimiter 0 100 1];
              store := memory (Set_ newMemoryStore "192.0.2.1" (Ref 0)) |} (Ref 0)).
  - simpl. lia.
  - reflexivity.
  - reflexivity.
Defined.

(** *** The Redis-backed store in use *)

(** X8: with the Redis-backed store every request is judged as if it were
    the first one. Whatever the rate, the burst and the requests served
    before, a request is admitted exactly when a limiter made at that
    moment admits its first call; the run leaves one more limiter on the
    heap per request and the store as it was. *)
Theorem redis_judges_each_request_afresh (opts : Options)
    (fs : list (gin.Context -> gin.Context)) (rs : list Request) (w : World)
    (rd : redisStore) :
  (length fs < 61)%nat ->
  store w = redis rd ->
  outcome (serveAll opts (map gin.final fs) rs w) =
  Some (map (fun r => (rate.Allow (when r)
                         (rate.NewLimiter (when r) (Rate opts) (Burst opts))).1) rs,
        {| heap := heap w ++
             map (fun r => (rate.Allow (when r)
                              (rate.NewLimiter (when r) (Rate opts) (Burst opts))).2) rs;
           store := redis rd |}).
Proof.
  intros Hlen. revert w. induction rs as [|r rs IH]; intros w Hw.
  { unfold outcome. simpl. rewrite app_nil_r. destruct w. simpl in Hw. by rewrite Hw. }
  rewrite outcome_cons by done.
  rewrite (check_miss _ _ _ _ _ _ NilLimiter) by (by rewrite Hw).
  cbn [mbind option_bind fst snd]. rewrite IH by (by rewrite Hw).
  cbn [mbind option_bind fst snd heap map]. by rewrite <- app_assoc.
Qed.

(** The Redis usage of the example program with the burst set to zero
    rejects a request; with the burst of one it admits the same request
    again and again. *)
Lemma redis_judges_each_request_afresh_witness :
  outcome (serveAll Test.RedisUsage (map gin.final [Test.OK])
             [Test.GET 0 "192.0.2.1" "k"; Test.GET 0 "192.0.2.1" "k"]
             (start Test.RedisUsage)) =
  Some ([true; true],
        {| heap := [(rate.Allow 0 (rate.NewLimiter 0 1 1)).2;
                    (rate.Allow 0 (rate.NewLimiter 0 1 1)).2];
           store := redis {| client := {| Addr := "localhost:6379" |}; ctx := Background |} |}).
Proof.
  rewrite (redis_judges_each_request_afresh Test.RedisUsage [Test.OK]
             [Test.GET 0 "192.0.2.1" "k"; Test.GET 0 "192.0.2.1" "k"]
             (start Test.RedisUsage)
             {| client := {| Addr := "localhost:6379" |}; ctx := Background |}).
  - reflexivity.
  - simpl. lia.
  - reflexivity.
Defined.

(** *** The in-memory store in use *)

(** One request against the in-memory store: the key of the request is in
    the store afterwards, no other key is added, and a limiter is added to
    the heap exactly when the key was not there. *)
Lemma check_memory_dom (r : Q) (b : Z) (keyFunc : gin.Context -> string) (now : Q)
    (c : gin.Context) (w : World) (m : memoryStore) :
  wf w ->
  store w = memory m ->
  length (heap w) = size (dom (limiters m)) ->
  exists (ok : bool) (l : LimiterPtr) (w1 : World) (m1 : memoryStore),
    check r b keyFunc now c w = Some (ok, l, w1) /\
    wf w1 /\
    store w1 = memory m1 /\
    dom (limiters m1) = {[keyFunc c]} ∪ dom (limiters m) /\
    length (heap w1) = size (dom (limiters m1)).
Proof.
  intros Hwf Hs Hlen.
  destruct (check_wf r b keyFunc now c w Hwf) as (l & w1 & Hcheck & Hwf1 & _).
  exists (rate.Allow now (default (rate.NewLimiter now r b) (limiterOf w (keyFunc c)))).1, l, w1.
  pose proof Hcheck as Hcheck0.
  unfold wf in Hwf. rewrite Hs in Hwf. destruct Hwf as [Hval _].
  destruct (limiters m !! keyFunc c) as [p|] eqn:Hk.
  - destruct (Hval _ _ Hk) as (a & -> & Ha).
    destruct (lookup_lt_is_Some_2 (heap w) a Ha) as [lim Hlim].
    rewrite (check_hit _ _ _ _ _ _ (Ref a)) in Hcheck
      by (rewrite Hs; simpl; unfold memoryStore_Get; by rewrite Hk).
    simpl in Hcheck. rewrite Hlim in Hcheck. simpl in Hcheck.
    injection Hcheck as _ _ Hw1. subst w1.
    exists m. split; [exact Hcheck0|]. split; [exact Hwf1|]. split; [done|split].
    + apply elem_of_dom_2 in Hk. set_solver.
    + cbn [heap]. by rewrite length_insert.
  - rewrite (check_miss _ _ _ _ _ _ NilLimiter) in Hcheck
      by (rewrite Hs; simpl; unfold memoryStore_Get; by rewrite Hk).
    injection Hcheck as _ _ Hw1. subst w1.
    exists (memoryStore_Set m (keyFunc c) (Ref (length (heap w)))).
    split; [exact Hcheck0|]. split; [exact Hwf1|]. split; [|split].
    + cbn [store]. by rewrite Hs.
    + cbn [memoryStore_Set limiters]. by rewrite dom_insert_L.
    + cbn [heap memoryStore_Set limiters]. rewrite length_app, dom_insert_L. cbn [length].
      apply not_elem_of_dom in Hk.
      rewrite size_union by set_solver. rewrite size_singleton. lia.
Qed.

(** X9: the in-memory store never drops a key. After a run from
    construction with the default store in which the requests were served
    one after the other, the keys in the store are exactly the keys of the
    requests served, and the heap holds one limiter for each of them.
    (Requests that overlap can leave more limiters than keys, see X12.) *)
Theorem memory_store_one_limiter_per_key (opts : Options)
    (fs : list (gin.Context -> gin.Context)) (rs : list Request) :
  (New opts).1 = memory newMemoryStore ->
  (length fs < 63)%nat ->
  exists (resp : list gin.Context) (w' : World) (m' : memoryStore),
    serveAll opts (map gin.final fs) rs (start opts) = Some (resp, w') /\
    store w' = memory m' /\
    dom (limiters m') = list_to_set (map (fun r => keyOf opts (entering r)) rs) /\
    length (heap w') = size (dom (limiters m')).
Proof.
  intros Hstore Hlen.
  assert (Hgen : forall (w : World) (m : memoryStore),
    wf w -> store w = memory m -> length (heap w) = size (dom (limiters m)) ->
    exists (resp : list gin.Context) (w' : World) (m' : memoryStore),
      serveAll opts (map gin.final fs) rs w = Some (resp, w') /\
      store w' = memory m' /\
      dom (limiters m') =
        list_to_set (map (fun r => keyOf opts (entering r)) rs) ∪ dom (limiters m) /\
      length (heap w') = size (dom (limiters m'))).
  { induction rs as [|r rs IH]; intros w m Hwf Hs Hsize.
    { exists [], w, m. split; [done|]. split; [done|]. split; [|done].
      simpl. set_solver. }
    destruct (check_memory_dom (Rate opts) (Burst opts) (keyOf opts) (when r) (entering r)
                w m Hwf Hs Hsize) as (ok & l & w1 & m1 & Hcheck & Hwf1 & Hs1 & Hdom1 & Hsize1).
    destruct (IH w1 m1 Hwf1 Hs1 Hsize1) as (resp & w' & m' & Hrun & Hs' & Hdom' & Hsize').
    cbn [serveAll]. rewrite ServeHTTP_finals by done. rewrite Hcheck.
    destruct ok; cbn [mbind option_bind fst snd]; rewrite Hrun;
      cbn [mbind option_bind fst snd];
      eexists _, w', m'; (split; [reflexivity|]); (split; [done|]); (split; [|done]);
      rewrite Hdom', Hdom1; cbn [map list_to_set]; set_solver. }
  destruct (Hgen (start opts) newMemoryStore) as (resp & w' & m' & Hrun & Hs' & Hdom' & Hsize').
  - apply wf_start. by rewrite Hstore.
  - exact Hstore.
  - reflexivity.
  - exists resp, w', m'. split; [done|]. split; [done|]. split; [|done].
    rewrite Hdom'. cbn [newMemoryStore limiters]. set_solver.
Qed.

Lemma memory_store_one_limiter_per_key_witness :
  exists (resp : list gin.Context) (w' : World) (m' : memoryStore),
    serveAll Test.DefaultRateLimiter (map gin.final [Test.OK])
      [Test.GET 0 "192.0.2.1" "k"; Test.GET 0 "192.0.2.2" "k"; Test.GET 0 "192.0.2.1" "k"]
      (start Test.DefaultRateLimiter) = Some (resp, w') /\
    store w' = memory m' /\
    dom (limiters m') = list_to_set ["192.0.2.1"; "192.0.2.2"; "192.0.2.1"] /\
    length (heap w') = size (dom (limiters m')).
Proof.
  apply (memory_store_one_limiter_per_key Test.DefaultRateLimiter [Test.OK]
           [Test.GET 0 "192.0.2.1" "k"; Test.GET 0 "192.0.2.2" "k";
            Test.GET 0 "192.0.2.1" "k"]).
  - reflexivity.
  - simpl. lia.
Defined.

(** *** The scenario of the package's tests *)

(** The bucket of burst one after its first call, called again before a
    whole token has come in. *)
Lemma Allow_second_call_rejected (t1 t2 r : Q) :
  0 < r ->
  t1 <= t2 ->
  (t2 - t1) * r < 1 ->
  (rate.Allow t2 (rate.Allow t1 (rate.NewLimiter t1 r 1)).2).1 = false.
Proof.
  intros Hr Ht Hlt.
  pose proof (rate_facts.Allow_new t1 r 1 Hr ltac:(lia)) as Hfirst.
  pose proof (rate_facts.Allow_tokens t1 (rate.NewLimiter t1 r 1)) as Htok.
  rewrite Hfirst in Htok.
  pose proof (rate_facts.refill_le_burst t1 (rate.NewLimiter t1 r 1)) as Hcap.
  apply rate_facts.Allow_true in Hfirst.
  destruct (rate_facts.Allow_fields t1 (rate.NewLimiter t1 r 1)) as (Hl & Hb & Hlast).
  cbn [rate.NewLimiter rate.burst rate.limit] in *. change (inject_Z 1) with 1 in Hcap.
  destruct (rate.Allow t2 (rate.Allow t1 (rate.NewLimiter t1 r 1)).2).1 eqn:E; [|done].
  apply rate_facts.Allow_true in E. unfold rate.refill in E.
  rewrite Hl, Hb, Hlast in E. change (inject_Z 1) with 1 in E.
  destruct (Qlt_le_dec _ _) in E; lra.
Qed.

(** X10: what the tests of the package check, for any middleware with the
    default store, burst one and a positive rate, when the second request
    is served after the first has been: the first request of a key is
    answered by the handlers behind the middleware, and a second request of
    that key that comes before a whole token has been refilled gets the
    answer of the reject handler, aborted, with the limiter of the key. *)
Theorem second_request_in_period_rejected (opts : Options)
    (fs : list (gin.Context -> gin.Context)) (r1 r2 : Request) :
  (New opts).1 = memory newMemoryStore ->
  (length fs < 63)%nat ->
  Burst opts = 1%Z ->
  0 < Rate opts ->
  keyOf opts (entering r1) = keyOf opts (entering r2) ->
  when r1 <= when r2 ->
  (when r2 - when r1) * Rate opts < 1 ->
  serveAll opts (map gin.final fs) [r1; r2] (start opts) =
  Some ([admitted fs r1;
         rejected opts r2 (Ref 0)
           [(rate.Allow (when r2)
               (rate.Allow (when r1) (rate.NewLimiter (when r1) (Rate opts) 1)).2).2]],
        {| heap := [(rate.Allow (when r2)
                       (rate.Allow (when r1) (rate.NewLimiter (when r1) (Rate opts) 1)).2).2];
           store := memory (Set_ newMemoryStore (keyOf opts (entering r1)) (Ref 0)) |}).
Proof.
  intros Hstore Hlen Hburst Hrate Hkey Ht Hlt.
  cbn [serveAll]. rewrite !ServeHTTP_finals by done.
  rewrite (check_miss _ _ _ _ _ (start opts) NilLimiter).
  2:{ unfold start. cbn [store]. rewrite Hstore. apply store_facts.memoryStore_Get_new. }
  rewrite Hburst. rewrite rate_facts.Allow_new by (done || lia).
  cbn [mbind option_bind fst snd]. unfold start at 1 2 3. cbn [heap store length app].
  rewrite Hstore. cbn [Set_ AnyStore_Store].
  rewrite ServeHTTP_finals by done.
  rewrite (check_hit _ _ _ _ _ _ (Ref 0)).
  2:{ cbn [store]. rewrite <- Hkey. simpl. unfold memoryStore_Get, memoryStore_Set. simpl.
      by rewrite lookup_insert_eq. }
  cbn [heap store deref lookup list_lookup mbind option_bind].
  rewrite Allow_second_call_rejected by done.
  reflexivity.
Qed.

(** The third test of the package: the reject handler answers 418, and
    that is the answer to the second request. *)
Lemma second_request_in_period_rejected_witness :
  exists (c2 : gin.Context) (w' : World),
    serveAll Test.CustomOnLimitExceeded (map gin.final [Test.OK])
      [Test.GET 0 "192.0.2.1" "k"; Test.GET (1 # 1000) "192.0.2.1" "k"]
      (start Test.CustomOnLimitExceeded)
    = Some ([admitted [Test.OK] (Test.GET 0 "192.0.2.1" "k"); c2], w') /\
    gin.status (admitted [Test.OK] (Test.GET 0 "192.0.2.1" "k")) = 200%Z /\
    gin.status c2 = 418%Z /\ gin.body c2 = "I'm a teapot".
Proof.
  eexists _, _. split.
  - apply (second_request_in_period_rejected Test.CustomOnLimitExceeded [Test.OK]
             (Test.GET 0 "192.0.2.1" "k") (Test.GET (1 # 1000) "192.0.2.1" "k")).
    + reflexivity.
    + simpl. lia.
    + reflexivity.
    + simpl. lra.
    + reflexivity.
    + simpl. lra.
    + simpl. lra.
  - repeat split.
Defined.

(** *** The in-memory store as one bucket per key *)

Lemma buckets_cons (opts : Options) (r : Request) (rs : list Request)
    (m : gmap string rate.Limiter) :
  buckets opts (r :: rs) m =
  ((rate.Allow (when r)
      (default (rate.NewLimiter (when r) (Rate opts) (Burst opts))
         (m !! keyOf opts (entering r)))).1 ::
   (buckets opts rs
      (<[keyOf opts (entering r) :=
           (rate.Allow (when r)
              (default (rate.NewLimiter (when r) (Rate opts) (Burst opts))
                 (m !! keyOf opts (entering r)))).2]> m)).1,
   (buckets opts rs
      (<[keyOf opts (entering r) :=
           (rate.Allow (when r)
              (default (rate.NewLimiter (when r) (Rate opts) (Burst opts))
                 (m !! keyOf opts (entering r)))).2]> m)).2).
Proof.
  cbn [buckets]. destruct (rate.Allow _ _) as [ok lim']. cbn [fst snd].
  by destruct (buckets opts rs _).
Qed.

(** X11: with the default store, and as long as the requests are served
    one after the other, the middleware is one token bucket per key. Such a
    run from construction admits and rejects exactly as the buckets do when
    each request calls Allow on the bucket of its key, a new one if the key
    has none; and afterwards the limiter the store holds for a key is the
    bucket of that key. (For requests that overlap see X12.) *)
Theorem memory_store_is_bucket_per_key (opts : Options)
    (fs : list (gin.Context -> gin.Context)) (rs : list Request) :
  (New opts).1 = memory newMemoryStore ->
  (length fs < 61)%nat ->
  exists w' : World,
    outcome (serveAll opts (map gin.final fs) rs (start opts))
      = Some ((buckets opts rs ∅).1, w') /\
    forall k : string, limiterOf w' k = (buckets opts rs ∅).2 !! k.
Proof.
  intros Hstore Hlen.
  assert (Hgen : forall (w : World) (m : gmap string rate.Limiter),
    wf w -> (exists ms : memoryStore, store w = memory ms) ->
    (forall k : string, limiterOf w k = m !! k) ->
    exists w' : World,
      outcome (serveAll opts (map gin.final fs) rs w) = Some ((buckets opts rs m).1, w') /\
      forall k : string, limiterOf w' k = (buckets opts rs m).2 !! k).
  { induction rs as [|r rs IH]; intros w m Hwf [ms Hms] Hsame.
    { exists w. split; [reflexivity|exact Hsame]. }
    rewrite outcome_cons by done. rewrite buckets_cons. cbn [fst snd].
    destruct (check_wf (Rate opts) (Burst opts) (keyOf opts) (when r) (entering r) w Hwf)
      as (l & w1 & Hcheck & Hwf1 & Hframe & Hown & _ & Hkind).
    rewrite Hms in Hown, Hkind. rewrite Hsame in Hcheck, Hown.
    rewrite Hcheck. cbn [mbind option_bind fst snd].
    destruct (IH w1 (<[keyOf opts (entering r) :=
                 (rate.Allow (when r)
                    (default (rate.NewLimiter (when r) (Rate opts) (Burst opts))
                       (m !! keyOf opts (entering r)))).2]> m) Hwf1 Hkind)
      as (w' & Hrun & Hsame').
    { intros k. destruct (decide (k = keyOf opts (entering r))) as [->|Hne].
      - by rewrite lookup_insert_eq.
      - rewrite lookup_insert_ne by done. rewrite Hframe by done. apply Hsame. }
    rewrite Hrun. cbn [mbind option_bind fst snd]. exists w'. split; [reflexivity|done]. }
  apply Hgen.
  - apply wf_start. by rewrite Hstore.
  - exists newMemoryStore. exact Hstore.
  - intros k. rewrite lookup_empty. apply limiterOf_start. by rewrite Hstore.
Qed.

(** Two clients, the first one comes twice. *)
Lemma memory_store_is_bucket_per_key_witness :
  exists w' : World,
    outcome (serveAll Test.DefaultRateLimiter (map gin.final [Test.OK])
               [Test.GET 0 "192.0.2.1" "k"; Test.GET 0 "192.0.2.2" "k";
                Test.GET 0 "192.0.2.1" "k"]
               (start Test.DefaultRateLimiter))
      = Some ([true; true; false], w') /\
    limiterOf w' "192.0.2.2" = Some (rate.Allow 0 (rate.NewLimiter 0 100 1)).2.
Proof.
  destruct (memory_store_is_bucket_per_key Test.DefaultRateLimiter [Test.OK]
              [Test.GET 0 "192.0.2.1" "k"; Test.GET 0 "192.0.2.2" "k";
               Test.GET 0 "192.0.2.1" "k"]) as (w' & Hrun & Hsame).
  - reflexivity.
  - simpl. lia.
  - exists w'. split.
    + exact (eq_trans Hrun eq_refl).
    + exact (eq_trans (Hsame "192.0.2.2") eq_refl).
Defined.

(** *** Requests that overlap *)

(** The three stretches, one after the other, are the handler. *)
Lemma check_finish (r : Q) (b : Z) (keyFunc : gin.Context -> string) (now : Q)
    (c : gin.Context) (w : World) :
  check r b keyFunc now c w = finish r b keyFunc now c (seek keyFunc c w) w.
Proof.
  unfold check, finish, seek, create, call.
  destruct (Get (store w) (keyFunc c)) as [limiter []]; cbn [negb fst snd]; [done|].
  by destruct (alloc (heap w) (rate.NewLimiter now r b)).
Qed.

(** X12: the handler holds no lock from Get to Set. When the first two
    requests of a key overlap, so that both look the key up before either
    has stored a limiter, each creates a limiter of its own: both are
    admitted whenever the rate is positive and the burst at least one (also
    at burst one, where the second would be rejected had it come after the
    first), two limiters are left on the heap, and the store keeps only the
    one that was stored last. *)
Theorem overlapping_first_requests_both_admitted (opts : Options) (r1 r2 : Request) :
  (New opts).1 = memory newMemoryStore ->
  0 < Rate opts ->
  (1 <= Burst opts)%Z ->
  keyOf opts (entering r1) = keyOf opts (entering r2) ->
  overlapped (Rate opts) (Burst opts) (keyOf opts) (when r1) (when r2)
    (entering r1) (entering r2) (start opts) =
  Some (true, true,
        {| heap := [(rate.Allow (when r1)
                       (rate.NewLimiter (when r1) (Rate opts) (Burst opts))).2;
                    (rate.Allow (when r2)
                       (rate.NewLimiter (when r2) (Rate opts) (Burst opts))).2];
           store := memory (Set_ newMemoryStore (keyOf opts (entering r1)) (Ref 1)) |}).
Proof.
  intros Hstore Hrate Hburst Hkey.
  unfold overlapped, seek, start. cbn [store heap]. rewrite Hstore, <- Hkey.
  rewrite store_facts.memoryStore_Get_new at 1.
  change (Get (memory newMemoryStore) (keyOf opts (entering r1)))
    with (Get newMemoryStore (keyOf opts (entering r1))).
  rewrite store_facts.memoryStore_Get_new.
  unfold finish, create, call. cbn [negb snd fst alloc heap store length app].
  cbn [deref lookup list_lookup mbind option_bind].
  pose proof (rate_facts.Allow_new (when r1) (Rate opts) (Burst opts) Hrate Hburst) as H1.
  pose proof (rate_facts.Allow_new (when r2) (Rate opts) (Burst opts) Hrate Hburst) as H2.
  destruct (rate.Allow (when r1) _) as [ok1 lim1] eqn:E1.
  cbn [fst snd] in H1. subst ok1.
  cbn [mbind option_bind fst snd heap store assign insert list_insert length app
       deref lookup list_lookup].
  destruct (rate.Allow (when r2) _) as [ok2 lim2] eqn:E2.
  cbn [fst snd] in H2. subst ok2.
  cbn [mbind option_bind fst snd heap store assign insert list_insert].
  do 3 f_equal. rewrite <- Hkey.
  cbn [Set_ AnyStore_Store memoryStore_Store]. unfold memoryStore_Set. cbn [limiters].
  by rewrite insert_insert_eq.
Qed.

(** The first configuration of the tests: served one after the other the
    two requests give 200 and 429; overlapping, both are admitted. *)
Lemma overlapping_first_requests_both_admitted_witness :
  overlapped 100 1 defaultKeyFunc 0 0
    (entering (Test.GET 0 "192.0.2.1" "k")) (entering (Test.GET 0 "192.0.2.1" "k"))
    (start Test.DefaultRateLimiter) =
  Some (true, true,
        {| heap := [(rate.Allow 0 (rate.NewLimiter 0 100 1)).2;
                    (rate.Allow 0 (rate.NewLimiter 0 100 1)).2];
           store := memory (Set_ newMemoryStore "192.0.2.1" (Ref 1)) |}).
Proof.
  apply (overlapping_first_requests_both_admitted Test.DefaultRateLimiter
           (Test.GET 0 "192.0.2.1" "k") (Test.GET 0 "192.0.2.1" "k")).
  - reflexivity.
  - reflexivity.
  - simpl. lia.
  - reflexivity.
Defined.

End middleware_more.
